(** * Server health automation: the log analytics pipeline and the simulated checker

    A shallow embedding of [log_report.py] (parsing of log lines, grouping,
    metrics, report rendering) and of [server_check.py] (the simulated
    health check), followed by the properties of the pipeline.

    Conventions of the embedding:
    - a Python [str] is a [string]; a character is its code point, so the
      embedding covers text whose code points are below 256 (the checker
      writes ASCII only);
    - a Python [int] is a [Z];
    - a [float] is a binary64 number, held as the rational [Q] it denotes;
      true division and multiplication round their exact result to the
      nearest binary64 number.  Integers are not bounded, and a quotient
      beyond the range of a float, on which CPython raises [OverflowError],
      is outside the embedding, as is a failure of [open];
    - a raised exception is the [Raise] case of [result];
    - a [dict] is an association list in insertion order, as CPython
      iterates it;
    - the clock, the random generator and the contents of the files are
      arguments of the functions that read them.

    [build_server_report_text] of [log_report.py] is left unfinished in the
    source (a loop header without a body) and is not embedded; the other
    functions are the same in the annotated copy of the script.  [main] of
    [server_check.py], which repeats [run_cycle] until it is interrupted, is
    not embedded either. *)

From Stdlib Require Import Bool List Arith ZArith QArith Lia.
From Stdlib Require Import Qround Qpower Qabs Lqa.
From Stdlib Require Import Ascii String DecimalString DecimalPos.
From Stdlib Require Import Permutation Sorted.
Import ListNotations.

Close Scope Q_scope.
Open Scope Z_scope.
Open Scope list_scope.
Open Scope string_scope.

(** ** Python built-ins used by the two scripts *)

Module Py.

Inductive exn : Type :=
| IndexError
| ValueError
| KeyError.

Inductive result (A : Type) : Type :=
| Ok (a : A)
| Raise (e : exn).

Arguments Ok {A} a.
Arguments Raise {A} e.

Definition bind {A B : Type} (m : result A) (k : A -> result B) : result B :=
  match m with
  | Ok a => k a
  | Raise e => Raise e
  end.

(** [str.isspace] on one character (code points below 256). *)
Definition isspace (c : ascii) : bool :=
  let n := nat_of_ascii c in
  (((9 <=? n) && (n <=? 13)) || ((28 <=? n) && (n <=? 32))
   || (n =? 133) || (n =? 160))%nat.

Fixpoint lstrip (s : string) : string :=
  match s with
  | EmptyString => EmptyString
  | String c r => if isspace c then lstrip r else s
  end.

Fixpoint rstrip (s : string) : string :=
  match s with
  | EmptyString => EmptyString
  | String c r =>
      match rstrip r with
      | EmptyString => if isspace c then EmptyString else String c EmptyString
      | r' => String c r'
      end
  end.

(** [s.strip()] *)
Definition strip (s : string) : string := rstrip (lstrip s).

(** [s.split(sep)] for a one-character separator: never the empty list. *)
Fixpoint split (sep : ascii) (s : string) : list string :=
  match s with
  | EmptyString => [EmptyString]
  | String c r =>
      if Ascii.eqb c sep then EmptyString :: split sep r
      else match split sep r with
           | h :: t => String c h :: t
           | [] => [String c EmptyString]
           end
  end.

(** [l[i]] for a non-negative index. *)
Definition index {A : Type} (l : list A) (i : nat) : result A :=
  match nth_error l i with
  | Some x => Ok x
  | None => Raise IndexError
  end.

Definition is_digit (c : ascii) : bool :=
  let n := nat_of_ascii c in ((48 <=? n) && (n <=? 57))%nat.

Definition digit_value (c : ascii) : Z := Z.of_nat (nat_of_ascii c - 48).

(** Digits after the first one: single underscores may separate digits. *)
Fixpoint int_digits (acc : Z) (after_underscore : bool) (s : string)
  : option Z :=
  match s with
  | EmptyString => if after_underscore then None else Some acc
  | String c r =>
      if is_digit c then int_digits (10 * acc + digit_value c) false r
      else if Ascii.eqb c "_" then
             if after_underscore then None else int_digits acc true r
      else None
  end.

Definition int_magnitude (s : string) : option Z :=
  match s with
  | EmptyString => None
  | String c r => if is_digit c then int_digits (digit_value c) false r else None
  end.

(** [int(s)] on a string, base 10: surrounding whitespace, an optional
    sign, digits with single underscores between them.  (The limit on the
    number of digits of recent CPython versions is not modelled.) *)
Definition int (s : string) : result Z :=
  let body :=
    match strip s with
    | String "+" r => int_magnitude r
    | String "-" r => option_map Z.opp (int_magnitude r)
    | t => int_magnitude t
    end in
  match body with
  | Some z => Ok z
  | None => Raise ValueError
  end.

(** [str(n)] for an int. *)
Definition str_of_int (z : Z) : string := NilZero.string_of_int (Z.to_int z).

(** [sep.join(l)] *)
Fixpoint join (sep : string) (l : list string) : string :=
  match l with
  | [] => EmptyString
  | [x] => x
  | x :: rest => x ++ sep ++ join sep rest
  end.

(** [sum(l)] *)
Definition sum (l : list Z) : Z := fold_left Z.add l 0.

(** [max(l)] of a non-empty list (the scripts guard the empty case). *)
Definition max (x : Z) (l : list Z) : Z := fold_left Z.max l x.

(** [sorted(l)] on strings: a stable sort by code points. *)
Fixpoint insert_sorted (x : string) (l : list string) : list string :=
  match l with
  | [] => [x]
  | y :: r => if String.ltb x y then x :: l else y :: insert_sorted x r
  end.

Definition sorted (l : list string) : list string :=
  fold_left (fun acc x => insert_sorted x acc) l [].

(** The elements of [set(l)], each once.  CPython iterates a set in hash
    order; the scripts only ever sort it. *)
Fixpoint set_of (l : list string) : list string :=
  match l with
  | [] => []
  | x :: r => if existsb (String.eqb x) (set_of r) then set_of r
              else x :: set_of r
  end.

(** A [dict] with string keys, in insertion order. *)
Definition dict (V : Type) : Type := list (string * V).

(** [k in d] *)
Definition contains {V : Type} (k : string) (d : dict V) : bool :=
  existsb (fun kv => fst kv =? k) d.

(** [d[k]] *)
Fixpoint getitem {V : Type} (k : string) (d : dict V) : result V :=
  match d with
  | [] => Raise KeyError
  | (k', v) :: r => if k' =? k then Ok v else getitem k r
  end.

(** [d[k] = v]: a new key goes last, an old key keeps its place. *)
Fixpoint setitem {V : Type} (k : string) (v : V) (d : dict V) : dict V :=
  match d with
  | [] => [(k, v)]
  | (k', v') :: r => if k' =? k then (k', v) :: r else (k', v') :: setitem k v r
  end.

(** A [float] is a binary64 number, held as the rational it denotes.  The
    result of an operation is the exact result rounded to the nearest
    binary64 number, ties to the even significand. *)

(** 2^q *)
Definition pow2 (q : Z) : Q := (2 ^ q)%Q.

(** The nearest integer, ties to the even one. *)
Definition rne (y : Q) : Z :=
  let f := Qfloor y in
  match (y - inject_Z f ?= 1 # 2)%Q with
  | Lt => f
  | Gt => f + 1
  | Eq => if Z.even f then f else f + 1
  end.

(** The exponent [e] of a positive rational: 2^e <= x < 2^(e+1). *)
Definition ilog2 (x : Q) : Z :=
  let c := Z.log2 (Qnum x) - Z.log2 (Zpos (Qden x)) in
  if Qle_bool (pow2 c) x then c else c - 1.

(** Rounding of a positive rational: to a multiple of 2^(e-52), a
    significand of 53 bits, or of 2^(-1074) in the subnormal range. *)
Definition round64_pos (x : Q) : Q :=
  let e := ilog2 x in
  let q := Z.max (e - 52) (-1074) in
  Qred (inject_Z (rne (x / pow2 q)) * pow2 q).

Definition round64 (x : Q) : Q :=
  match (x ?= 0)%Q with
  | Eq => 0%Q
  | Gt => round64_pos x
  | Lt => (- round64_pos (- x))%Q
  end.

(** [a / b] on ints: the quotient of the two integers, rounded once. *)
Definition true_div (a b : Z) : Q := round64 (inject_Z a / inject_Z b).

(** [x * y] on floats. *)
Definition float_mul (x y : Q) : Q := round64 (x * y).

(** [len(l)] *)
Definition len {A : Type} (l : list A) : Z := Z.of_nat (List.length l).

End Py.

Notation "x <- m ;; k" := (Py.bind m (fun x => k))
  (at level 61, m at next level, right associativity).

(** ** [log_report.py] *)

Module LogReport.

Import Py.

(** The dict built by [parse_log_line]: its seven keys are fixed. *)
Record Entry : Type := mkEntry {
  timestamp : string;
  server : string;
  env : string;
  is_up : bool;
  cpu : option Z;
  disk : option Z;
  status : string
}.

(** [None if text == "N/A" else int(text)] *)
Definition parse_metric (text : string) : result (option Z) :=
  if text =? "N/A" then Ok None else z <- int text ;; Ok (Some z).

(** [parse_log_line(line)]: [Ok None] is Python's [None], [Ok (Some e)] the
    dict, [Raise] an exception leaving the function. *)
Definition parse_log_line (line : string) : result (option Entry) :=
  let line := strip line in
  if line =? "" then Ok None
  else
    let parts := split "," line in
    let clean_parts := map strip parts in
    timestamp_text <- index clean_parts 0 ;;
    server_name <- index clean_parts 1 ;;
    server_env <- index clean_parts 2 ;;
    is_up_text <- index clean_parts 3 ;;
    cpu_text <- index clean_parts 4 ;;
    disk_text <- index clean_parts 5 ;;
    status_text <- index clean_parts 6 ;;
    let is_up := if is_up_text =? "True" then true else false in
    cpu <- parse_metric cpu_text ;;
    disk <- parse_metric disk_text ;;
    Ok (Some {| timestamp := timestamp_text;
                server := server_name;
                env := server_env;
                is_up := is_up;
                cpu := cpu;
                disk := disk;
                status := status_text |}).

(** The loop of [load_log_file] over the lines of the opened file, with the
    list [entries] built so far.  Nothing catches an exception of
    [parse_log_line]. *)
Fixpoint load_loop (entries : list Entry) (lines : list string)
  : result (list Entry) :=
  match lines with
  | [] => Ok entries
  | line :: rest =>
      entry <- parse_log_line line ;;
      match entry with
      | Some e => load_loop (entries ++ [e])%list rest
      | None => load_loop entries rest
      end
  end.

(** [load_log_file(file_path)], on the lines the file iterator yields (each
    with its line terminator). *)
Definition load_log_file (lines : list string) : result (list Entry) :=
  load_loop [] lines.

(** The three grouping functions run the same loop, each on its own field.
    [summary[k].append(entry)] mutates the list held by the dict. *)
Section Grouping.

Variable key : Entry -> string.

Definition group_step (summary : dict (list Entry)) (entry : Entry)
  : result (dict (list Entry)) :=
  let k := key entry in
  let summary := if contains k summary then summary else setitem k [] summary in
  bucket <- getitem k summary ;;
  Ok (setitem k (bucket ++ [entry])%list summary).

Fixpoint group_loop (summary : dict (list Entry)) (entries : list Entry)
  : result (dict (list Entry)) :=
  match entries with
  | [] => Ok summary
  | entry :: rest =>
      summary' <- group_step summary entry ;;
      group_loop summary' rest
  end.

Definition group_by (entries : list Entry) : result (dict (list Entry)) :=
  group_loop [] entries.

End Grouping.

Definition summarize_by_server : list Entry -> result (dict (list Entry)) :=
  group_by server.

Definition summarize_by_env : list Entry -> result (dict (list Entry)) :=
  group_by env.

Definition summarize_health : list Entry -> result (dict (list Entry)) :=
  group_by status.

(** The local variables the loop of [compute_server_metrics] updates. *)
Record Tally : Type := mkTally {
  t_up_count : Z;
  t_warning_count : Z;
  t_critical_count : Z;
  t_cpu_values : list Z;
  t_disk_values : list Z
}.

Definition tally_step (t : Tally) (entry : Entry) : Tally :=
  let up_count := if is_up entry then t_up_count t + 1 else t_up_count t in
  let critical_count :=
    if is_up entry then t_critical_count t else t_critical_count t + 1 in
  let warning_count :=
    if status entry =? "WARNING" then t_warning_count t + 1
    else t_warning_count t in
  let cpu_values :=
    match cpu entry with
    | Some c => (t_cpu_values t ++ [c])%list
    | None => t_cpu_values t
    end in
  let disk_values :=
    match disk entry with
    | Some d => (t_disk_values t ++ [d])%list
    | None => t_disk_values t
    end in
  mkTally up_count warning_count critical_count cpu_values disk_values.

Definition tally (entries : list Entry) : Tally :=
  fold_left tally_step entries (mkTally 0 0 0 [] []).

(** [sum(values) / len(values) if values else 0] *)
Definition average (values : list Z) : Q :=
  match values with
  | [] => 0%Q
  | _ :: _ => true_div (sum values) (len values)
  end.

(** [max(values) if values else 0] *)
Definition maximum (values : list Z) : Z :=
  match values with
  | [] => 0
  | v :: rest => max v rest
  end.

Record Metrics : Type := mkMetrics {
  total_checks : Z;
  up_count : Z;
  warning_count : Z;
  critical_count : Z;
  avg_cpu : Q;
  max_cpu : Z;
  avg_disk : Q;
  max_disk : Z;
  uptime_pct : Q
}.

Definition compute_server_metrics (entries_for_server : list Entry) : Metrics :=
  let total_checks := len entries_for_server in
  let t := tally entries_for_server in
  let avg_cpu := average (t_cpu_values t) in
  let max_cpu := maximum (t_cpu_values t) in
  let avg_disk := average (t_disk_values t) in
  let max_disk := maximum (t_disk_values t) in
  let uptime_pct :=
    if (0 <? total_checks)%Z
    then float_mul (true_div (t_up_count t) total_checks) 100
    else 0%Q in
  {| total_checks := total_checks;
     up_count := t_up_count t;
     warning_count := t_warning_count t;
     critical_count := t_critical_count t;
     avg_cpu := avg_cpu;
     max_cpu := max_cpu;
     avg_disk := avg_disk;
     max_disk := max_disk;
     uptime_pct := uptime_pct |}.

(** What a report has printed, and what it has written to its file when it
    opened one. *)
Record Sink : Type := mkSink {
  console : list string;
  file : option (list string)
}.

(** [open(report_file_path, "w") if report_file_path else None] *)
Definition open_report (report_file_path : option string) : Sink :=
  match report_file_path with
  | Some path => if path =? "" then mkSink [] None else mkSink [] (Some [])
  | None => mkSink [] None
  end.

Definition newline : string := String (ascii_of_nat 10) EmptyString.

Definition write_and_print (text : string) (out : Sink) : Sink :=
  {| console := (console out ++ [text])%list;
     file := option_map (fun written => (written ++ [(text ++ newline)%string])%list) (file out) |}.

Definition write_all (texts : list string) (out : Sink) : Sink :=
  fold_left (fun o text => write_and_print text o) texts out.

Definition separator : string := "========================================".

Section Reports.

(** The format specification [:.1f] of CPython, applied to a rational or to
    the int 0. *)
Variable format_1f : Q -> string.

(** The lines after the heading, the same in both reports. *)
Definition metrics_lines (metrics : Metrics) : list string :=
  [ "Total checks: " ++ str_of_int (total_checks metrics);
    "Uptime: " ++ str_of_int (up_count metrics) ++ "/"
      ++ str_of_int (total_checks metrics) ++ " ("
      ++ format_1f (uptime_pct metrics) ++ "%)";
    "Warnings: " ++ str_of_int (warning_count metrics);
    "Critical (down): " ++ str_of_int (critical_count metrics);
    "Avg CPU: " ++ format_1f (avg_cpu metrics) ++ "% | Max CPU: "
      ++ str_of_int (max_cpu metrics) ++ "%";
    "Avg Disk: " ++ format_1f (avg_disk metrics) ++ "% | Max Disk: "
      ++ str_of_int (max_disk metrics) ++ "%";
    separator;
    "" ].

(** [entries_for_server[0]["env"] if entries_for_server else "unknown"] *)
Definition server_env_label (entries_for_server : list Entry) : string :=
  match entries_for_server with
  | first :: _ => env first
  | [] => "unknown"
  end.

(** One turn of the loop of [generate_server_report]: the texts passed to
    [write_and_print], in order. *)
Definition server_block (server : string) (entries_for_server : list Entry)
  : list string :=
  let env := server_env_label entries_for_server in
  let metrics := compute_server_metrics entries_for_server in
  separator
  :: ("SERVER: " ++ server ++ " (env: " ++ env ++ ")")
  :: metrics_lines metrics.

Definition generate_server_report (summary_serv : dict (list Entry))
  (report_file_path : option string) : Sink :=
  fold_left
    (fun out item => write_all (server_block (fst item) (snd item)) out)
    summary_serv (open_report report_file_path).

(** [sorted({entry["server"] for entry in entries_for_env})] *)
Definition servers_in_env (entries_for_env : list Entry) : list string :=
  sorted (set_of (map server entries_for_env)).

(** One turn of the loop of [generate_env_report]. *)
Definition env_block (env : string) (entries_for_env : list Entry)
  : list string :=
  let env_name :=
    match entries_for_env with
    | _ :: _ => env
    | [] => "unknown"
    end in
  let servers_in_env := servers_in_env entries_for_env in
  let metrics := compute_server_metrics entries_for_env in
  separator
  :: ("ENVIRONMENT: " ++ env_name)
  :: ("Servers in this env: " ++ join ", " servers_in_env)
  :: metrics_lines metrics.

Definition generate_env_report (summary_env : dict (list Entry))
  (report_file_path : option string) : Sink :=
  fold_left
    (fun out item => write_all (env_block (fst item) (snd item)) out)
    summary_env (open_report report_file_path).

End Reports.

End LogReport.

(** ** [server_check.py] *)

Module ServerCheck.

Import Py.

Definition CPU_WARN_THRESHOLD : Z := 80.
Definition DISK_WARN_THRESHOLD : Z := 85.


Definition hardcode_env : dict string :=
  [("web01", "prod"); ("db01", "prod"); ("cache01", "dev"); ("auth01", "stage")].

Definition health_eval (is_up : bool) (cpu disk : Z) : string :=
  if negb is_up then "CRITICAL"
  else if (CPU_WARN_THRESHOLD <? cpu)%Z || (DISK_WARN_THRESHOLD <? disk)%Z
       then "WARNING"
       else "GOOD".

(** The generator of the [random] module: an arbitrary supply of integers and
    the number of them already consumed. *)
Record Random : Type := mkRandom {
  supply : nat -> Z;
  consumed : nat
}.

(** [_randbelow(n)] for [n > 0]: some integer in [0, n). *)
Definition randbelow (n : Z) (g : Random) : Z * Random :=
  (supply g (consumed g) mod n, mkRandom (supply g) (S (consumed g))).

(** [random.choice(seq)] on a non-empty sequence: [seq[_randbelow(len(seq))]] *)
Definition choice {A : Type} (first : A) (rest : list A) (g : Random)
  : A * Random :=
  let (i, g') := randbelow (len (first :: rest)) g in
  (nth (Z.to_nat i) (first :: rest) first, g').

(** [random.randint(a, b)]: [a + _randbelow(b - a + 1)] *)
Definition randint (a b : Z) (g : Random) : Z * Random :=
  let (r, g') := randbelow (b - a + 1) g in
  (a + r, g').

Definition simulate_metrics (g : Random) : (bool * Z * Z) * Random :=
  let (is_up, g1) := choice true [true; false; true] g in
  let (cpu, g2) := randint 0 100 g1 in
  let (disk, g3) := randint 0 100 g2 in
  ((is_up, cpu, disk), g3).

(** The variables [cpu] and [disk] of [check_server] hold an int, then
    possibly the string ["N/A"]. *)
Inductive reading : Type :=
| Number (z : Z)
| Text (s : string).

(** [f"{x}"] *)
Definition format_reading (x : reading) : string :=
  match x with
  | Number z => str_of_int z
  | Text s => s
  end.

Definition format_bool (b : bool) : string := if b then "True" else "False".

(** The colours of [colorama.Fore] that the script uses. *)
Definition escape (code : string) : string :=
  String (ascii_of_nat 27) ("[" ++ code ++ "m").

Definition Fore_GREEN : string := escape "32".
Definition Fore_YELLOW : string := escape "33".
Definition Fore_RED : string := escape "31".

(** The values of [is_up], [cpu], [disk] and [status] once [check_server] has
    replaced the readings of a server that is down. *)
Record Check : Type := mkCheck {
  check_is_up : bool;
  check_cpu : reading;
  check_disk : reading;
  check_status : string
}.

Definition simulated_check (g : Random) : Check * Random :=
  let '((is_up, cpu, disk), g') := simulate_metrics g in
  let status := health_eval is_up cpu disk in
  let cpu := if negb is_up then Text "N/A" else Number cpu in
  let disk := if negb is_up then Text "N/A" else Number disk in
  (mkCheck is_up cpu disk status, g').

Definition log_line (timestamp server_name server_env : string) (c : Check)
  : string :=
  timestamp ++ ", " ++ server_name ++ ", " ++ server_env ++ ", "
  ++ format_bool (check_is_up c) ++ ", " ++ format_reading (check_cpu c)
  ++ ", " ++ format_reading (check_disk c) ++ ", " ++ check_status c
  ++ LogReport.newline.

(** What the script acts on: the generator, the log file it appends to and
    the texts it prints. *)
Record World : Type := mkWorld {
  random : Random;
  log_file : list string;
  printed : list string
}.

(** [check_server(server_name)], with the value of [datetime.now().isoformat()]
    given as [timestamp]. *)
Definition check_server (server_name timestamp : string) (w : World) : World :=
  let server_env :=
    match getitem server_name hardcode_env with
    | Ok e => e
    | Raise _ => "dev"
    end in
  let (c, g') := simulated_check (random w) in
  let status_color :=
    if check_status c =? "GOOD" then Fore_GREEN
    else if check_status c =? "WARNING" then Fore_YELLOW
    else Fore_RED in
  let summary :=
    "=== Summary for " ++ server_name ++ " /// Type: " ++ server_env ++ " ==="
    ++ LogReport.newline
    ++ "Status:" ++ status_color ++ "!!!" ++ check_status c ++ "!!!"
    ++ LogReport.newline
    ++ "Up: " ++ format_bool (check_is_up c) ++ LogReport.newline
    ++ "CPU Usage Percentage: " ++ format_reading (check_cpu c)
    ++ LogReport.newline
    ++ "Disk Usage Percentage: " ++ format_reading (check_disk c)
    ++ LogReport.newline in
  {| random := g';
     log_file := (log_file w ++ [log_line timestamp server_name server_env c])%list;
     printed := (printed w ++ [summary])%list |}.



End ServerCheck.

(** ** The pipeline of [main] in [log_report.py]

    [main] loads the file named by [--input], groups the entries twice and
    writes the two reports; [--report] and [--no-file] are parsed and not
    used.  The result is the pair of sinks of the two reports. *)

Module Pipeline.

Import Py LogReport.

Section Main.

Variable format_1f : Q -> string.

Definition main (input_lines : list string) (output : string)
  : result (Sink * Sink) :=
  entries <- load_log_file input_lines ;;
  summary_serv <- summarize_by_server entries ;;
  summary_env <- summarize_by_env entries ;;
  let server_report_path := "server_" ++ output ++ ".txt" in
  let env_report_path := "env_" ++ output ++ ".txt" in
  Ok (generate_server_report format_1f summary_serv (Some server_report_path),
      generate_env_report format_1f summary_env (Some env_report_path)).

End Main.

End Pipeline.

(** ** Vocabulary of the properties *)

Module Spec.

Import Py LogReport.

(** A line that is empty or made of whitespace only. *)
Fixpoint blank (line : string) : bool :=
  match line with
  | EmptyString => true
  | String c r => isspace c && blank r
  end.

(** The comma-separated fields of a line once trimmed. *)
Definition fields (line : string) : list string := split "," (strip line).

(** A line that [parse_log_line] accepts: it is blank or it yields a record. *)
Definition parses (line : string) : bool :=
  match parse_log_line line with
  | Ok _ => true
  | Raise _ => false
  end.

(** The records of the lines that parse to a record, in the order of the
    lines. *)
Definition parsed_records (lines : list string) : list Entry :=
  flat_map
    (fun line =>
       match parse_log_line line with
       | Ok (Some e) => [e]
       | _ => []
       end)
    lines.

(** The keys of a sequence in the order of their first occurrence. *)
Fixpoint first_keys (keys : list string) : list string :=
  match keys with
  | [] => []
  | k :: rest => k :: filter (fun k' => negb (k' =? k)) (first_keys rest)
  end.

(** The records of a sequence that carry the key [k], in their order. *)
Definition with_key (key : Entry -> string) (k : string) (entries : list Entry)
  : list Entry :=
  filter (fun e => key e =? k) entries.

(** Grouping as the specification words it: one bucket per key, in the order
    of first occurrence, holding the records of that key in their order. *)
Definition buckets (key : Entry -> string) (entries : list Entry)
  : dict (list Entry) :=
  map (fun k => (k, with_key key k entries)) (first_keys (map key entries)).

(** The values of an optional field that are present, in order. *)
Definition present (field : Entry -> option Z) (entries : list Entry) : list Z :=
  flat_map
    (fun e =>
       match field e with
       | Some v => [v]
       | None => []
       end)
    entries.

Definition in_percent_range (v : Z) : Prop := 0 <= v <= 100.

(** The order of [str] comparison: by code points. *)
Definition str_lt (a b : string) : Prop := String.ltb a b = true.

(** Every character of a string satisfies a test. *)
Fixpoint all_chars (p : ascii -> bool) (s : string) : bool :=
  match s with
  | EmptyString => true
  | String c r => p c && all_chars p r
  end.

Definition no_comma (s : string) : bool :=
  all_chars (fun c => negb (Ascii.eqb c ",")) s.

(** A function applied to the last element of a list only. *)
Fixpoint map_last {A : Type} (f : A -> A) (l : list A) : list A :=
  match l with
  | [] => []
  | [x] => [f x]
  | x :: r => x :: map_last f r
  end.

(** The number of records of a sequence that satisfy a test. *)
Definition count (p : Entry -> bool) (entries : list Entry) : Z :=
  len (filter p entries).

Definition is_warning (e : Entry) : bool := status e =? "WARNING".

Definition is_critical (e : Entry) : bool := status e =? "CRITICAL".

(** What the analytics side reads back from a reading of the checker. *)
Definition reading_value (r : ServerCheck.reading) : option Z :=
  match r with
  | ServerCheck.Number z => Some z
  | ServerCheck.Text _ => None
  end.

(** A reading as the checker writes it: a number or the text N/A. *)
Definition reading_ok (r : ServerCheck.reading) : bool :=
  match r with
  | ServerCheck.Number _ => true
  | ServerCheck.Text s => s =? "N/A"
  end.

(** The record that a log line of the checker stands for. *)
Definition entry_of_check (timestamp server_name server_env : string)
  (c : ServerCheck.Check) : Entry :=
  mkEntry (strip timestamp) (strip server_name) (strip server_env)
          (ServerCheck.check_is_up c)
          (reading_value (ServerCheck.check_cpu c))
          (reading_value (ServerCheck.check_disk c))
          (strip (ServerCheck.check_status c)).

(** The data-model invariant on a parsed record, with the status the
    checker derives from the readings. *)
Definition checker_record (e : Entry) : Prop :=
  if is_up e
  then exists c d,
         cpu e = Some c /\ disk e = Some d
         /\ in_percent_range c /\ in_percent_range d
         /\ status e = ServerCheck.health_eval true c d
  else cpu e = None /\ disk e = None /\ status e = "CRITICAL".

(** A text as [write_and_print] writes it to the report file. *)
Definition with_newline (text : string) : string := text ++ newline.

(** The environment that the checker logs for a server. *)
Definition logged_env (server_name : string) : string :=
  match getitem server_name ServerCheck.hardcode_env with
  | Ok e => e
  | Raise _ => "dev"
  end.


End Spec.

(** ** Properties of the parser and of the loader *)

Import Py LogReport Spec.

Example strip_trims_both_ends :
  strip ("  a b " ++ newline) = "a b" /\ strip (" " ++ newline) = "".
Proof. split; reflexivity. Qed.

Example split_keeps_empty_fields : split "," "a,,b," = ["a"; ""; "b"; ""].
Proof. reflexivity. Qed.

Example int_accepts_and_rejects :
  int "+1_000" = Ok 1000 /\ int "-07" = Ok (-7)
  /\ int "1__0" = Raise ValueError /\ int "" = Raise ValueError
  /\ int "1_" = Raise ValueError /\ int "12a" = Raise ValueError.
Proof. repeat split; reflexivity. Qed.

Example parse_checker_line :
  parse_log_line ("2024-01-01T00:00:00, web01, prod, True, 50, 60, GOOD" ++ newline)
  = Ok (Some (mkEntry "2024-01-01T00:00:00" "web01" "prod" true (Some 50) (Some 60) "GOOD")).
Proof. reflexivity. Qed.

Example parse_down_line :
  parse_log_line "t, db01, prod, False, N/A, N/A, CRITICAL"
  = Ok (Some (mkEntry "t" "db01" "prod" false None None "CRITICAL")).
Proof. reflexivity. Qed.

Example parse_bad_number :
  parse_log_line "t, db01, prod, True, 12.5, 3, GOOD" = Raise ValueError.
Proof. reflexivity. Qed.

Lemma lstrip_blank (s : string) : blank s = true -> lstrip s = "".
Proof.
  induction s as [|c r IH]; simpl; intro H.
  - reflexivity.
  - apply andb_true_iff in H as [Hc Hr]. rewrite Hc. auto.
Qed.

Lemma rstrip_blank (s : string) : blank s = true -> rstrip s = "".
Proof.
  induction s as [|c r IH]; simpl; intro H.
  - reflexivity.
  - apply andb_true_iff in H as [Hc Hr]. rewrite (IH Hr), Hc. reflexivity.
Qed.

Lemma strip_blank (s : string) : blank s = true -> strip s = "".
Proof.
  intro H. unfold strip. rewrite (lstrip_blank s H). reflexivity.
Qed.

Lemma lstrip_nonblank (s : string) :
  blank s = false ->
  exists c r, lstrip s = String c r /\ isspace c = false.
Proof.
  induction s as [|c r IH]; simpl; intro H.
  - discriminate.
  - destruct (isspace c) eqn:Hc.
    + simpl in H. auto.
    + exists c, r. auto.
Qed.

Lemma rstrip_head (c : ascii) (r : string) :
  isspace c = false -> rstrip (String c r) <> "".
Proof.
  intro Hc. simpl. destruct (rstrip r); [rewrite Hc|]; discriminate.
Qed.

Lemma strip_nonblank (s : string) : blank s = false -> strip s <> "".
Proof.
  intro H. destruct (lstrip_nonblank s H) as (c & r & E & Hc).
  unfold strip. rewrite E. now apply rstrip_head.
Qed.

Lemma strip_empty_iff (s : string) : strip s = "" <-> blank s = true.
Proof.
  split.
  - intro E. destruct (blank s) eqn:B; [reflexivity|].
    now destruct (strip_nonblank s B).
  - apply strip_blank.
Qed.

Lemma parse_metric_cases (text : string) :
  parse_metric text = Raise ValueError \/ exists v, parse_metric text = Ok v.
Proof.
  unfold parse_metric. destruct (text =? "N/A").
  - right. now exists None.
  - unfold int.
    destruct (match strip text with
              | String "+" r => int_magnitude r
              | String "-" r => option_map Z.opp (int_magnitude r)
              | t => int_magnitude t
              end) as [z|].
    + right. now exists (Some z).
    + now left.
Qed.

(** The body of [parse_log_line] past the guard of the empty line, by the
    number of fields. *)
Lemma parse_nonblank (line : string) :
  blank line = false ->
  parse_log_line line =
    match map strip (fields line) with
    | ts :: sn :: se :: up :: c :: d :: st :: _ =>
        cpu <- parse_metric c ;;
        disk <- parse_metric d ;;
        Ok (Some (mkEntry ts sn se (if up =? "True" then true else false)
                          cpu disk st))
    | _ => Raise IndexError
    end.
Proof.
  intro B. unfold parse_log_line, fields.
  destruct (strip line =? "") eqn:E.
  - apply String.eqb_eq in E. now destruct (strip_nonblank line B).
  - destruct (map strip (split "," (strip line)))
      as [|ts [|sn [|se [|up [|c [|d [|st tl]]]]]]]; reflexivity.
Qed.

Lemma parse_blank (line : string) :
  blank line = true -> parse_log_line line = Ok None.
Proof.
  intro B. unfold parse_log_line. now rewrite (strip_blank line B).
Qed.

Lemma parse_none_iff (line : string) :
  parse_log_line line = Ok None <-> blank line = true.
Proof.
  split; [|apply parse_blank].
  intro H. destruct (blank line) eqn:B; [reflexivity|].
  rewrite (parse_nonblank line B) in H.
  destruct (map strip (fields line))
    as [|ts [|sn [|se [|up [|c [|d [|st tl]]]]]]]; try discriminate.
  destruct (parse_metric c); simpl in H; [|discriminate].
  destruct (parse_metric d); simpl in H; discriminate.
Qed.

Lemma load_loop_app (acc : list Entry) (before after : list string) :
  load_loop acc (before ++ after)%list =
  (acc' <- load_loop acc before ;; load_loop acc' after).
Proof.
  revert acc. induction before as [|line rest IH]; intro acc; simpl.
  - reflexivity.
  - destruct (parse_log_line line) as [[e|]|x]; simpl; auto.
Qed.

Lemma load_loop_parsed (acc : list Entry) (lines : list string) :
  forallb parses lines = true ->
  load_loop acc lines = Ok (acc ++ parsed_records lines)%list.
Proof.
  revert acc. induction lines as [|line rest IH]; intros acc H; simpl.
  - now rewrite app_nil_r.
  - simpl in H. apply andb_true_iff in H as [Hl Hr]. unfold parses in Hl.
    destruct (parse_log_line line) as [[e|]|x]; simpl; try discriminate.
    + rewrite (IH _ Hr), <- app_assoc. reflexivity.
    + now apply IH.
Qed.

Lemma load_loop_returns (acc : list Entry) (lines : list string) (entries : list Entry) :
  load_loop acc lines = Ok entries ->
  entries = (acc ++ parsed_records lines)%list.
Proof.
  revert acc. induction lines as [|line rest IH]; intros acc H; simpl in *.
  - rewrite app_nil_r. congruence.
  - destruct (parse_log_line line) as [[e|]|x]; simpl in *; try discriminate.
    + rewrite (IH _ H), <- app_assoc. reflexivity.
    + now apply IH.
Qed.

(** No handler stands between [parse_log_line] and the caller of
    [load_log_file]: the exception of the first line that does not parse
    leaves the loader. *)
Lemma load_log_file_raises (before after : list string) (line : string) (x : exn) :
  forallb parses before = true ->
  parse_log_line line = Raise x ->
  load_log_file (before ++ line :: after) = Raise x.
Proof.
  intros Hb Hl. unfold load_log_file.
  rewrite load_loop_app, (load_loop_parsed _ _ Hb). simpl. now rewrite Hl.
Qed.

(** ** Properties of the dict operations and of grouping *)

Lemma contains_In {V : Type} (k : string) (d : dict V) :
  contains k d = true <-> In k (map fst d).
Proof.
  unfold contains. rewrite existsb_exists, in_map_iff. split.
  - intros (kv & Hin & E). apply String.eqb_eq in E. now exists kv.
  - intros (kv & E & Hin). exists kv. split; [easy|]. now apply String.eqb_eq.
Qed.

Lemma setitem_absent {V : Type} (k : string) (v : V) (d : dict V) :
  ~ In k (map fst d) -> setitem k v d = (d ++ [(k, v)])%list.
Proof.
  induction d as [|[k' v'] r IH]; simpl; intro H.
  - reflexivity.
  - destruct (String.eqb_spec k' k) as [E|N].
    + destruct H. now left.
    + rewrite IH; [reflexivity|]. intro Hin. apply H. now right.
Qed.

Lemma getitem_map {V : Type} (f : string -> V) (k : string) (keys : list string) :
  In k keys -> getitem k (map (fun k' => (k', f k')) keys) = Ok (f k).
Proof.
  induction keys as [|a r IH]; simpl; intro H.
  - easy.
  - destruct (String.eqb_spec a k) as [E|N].
    + now subst.
    + destruct H as [H|H]; [easy|auto].
Qed.

Lemma getitem_last {V : Type} (k : string) (v : V) (d : dict V) :
  ~ In k (map fst d) -> getitem k (d ++ [(k, v)])%list = Ok v.
Proof.
  induction d as [|[k' v'] r IH]; simpl; intro H.
  - now rewrite String.eqb_refl.
  - destruct (String.eqb_spec k' k) as [E|N].
    + destruct H. now left.
    + apply IH. intro Hin. apply H. now right.
Qed.

Lemma setitem_last {V : Type} (k : string) (v w : V) (d : dict V) :
  ~ In k (map fst d) ->
  setitem k w (d ++ [(k, v)])%list = (d ++ [(k, w)])%list.
Proof.
  induction d as [|[k' v'] r IH]; simpl; intro H.
  - now rewrite String.eqb_refl.
  - destruct (String.eqb_spec k' k) as [E|N].
    + destruct H. now left.
    + rewrite IH; [reflexivity|]. intro Hin. apply H. now right.
Qed.

Lemma setitem_map {V : Type} (f : string -> V) (k : string) (v : V)
  (keys : list string) :
  NoDup keys -> In k keys ->
  setitem k v (map (fun k' => (k', f k')) keys)
  = map (fun k' => (k', if k' =? k then v else f k')) keys.
Proof.
  induction keys as [|a r IH]; simpl; intros ND H.
  - easy.
  - inversion ND as [|? ? Ha NDr]; subst.
    destruct (String.eqb_spec a k) as [E|N].
    + subst. f_equal. apply map_ext_in. intros b Hb.
      destruct (String.eqb_spec b k) as [E|_]; [now subst|reflexivity].
    + f_equal. destruct H as [H|H]; [easy|auto].
Qed.

Lemma first_keys_In (k : string) (keys : list string) :
  In k (first_keys keys) <-> In k keys.
Proof.
  induction keys as [|a r IH]; simpl; [tauto|].
  rewrite filter_In, IH, negb_true_iff, String.eqb_neq.
  destruct (string_dec a k); intuition congruence.
Qed.

Lemma first_keys_NoDup (keys : list string) : NoDup (first_keys keys).
Proof.
  induction keys as [|a r IH]; simpl; constructor.
  - rewrite filter_In, String.eqb_refl. now intros [_ H].
  - now apply NoDup_filter.
Qed.

Lemma first_keys_snoc (k : string) (keys : list string) :
  first_keys (keys ++ [k]) =
  if existsb (String.eqb k) keys then first_keys keys
  else (first_keys keys ++ [k])%list.
Proof.
  induction keys as [|a r IH]; simpl; [reflexivity|].
  rewrite IH. destruct (existsb (String.eqb k) r).
  - now rewrite orb_true_r.
  - rewrite orb_false_r, filter_app. simpl.
    destruct (k =? a); simpl; [now rewrite app_nil_r|reflexivity].
Qed.

Lemma existsb_eqb_In (k : string) (keys : list string) :
  existsb (String.eqb k) keys = true <-> In k keys.
Proof.
  rewrite existsb_exists. split.
  - intros (x & Hin & E). apply String.eqb_eq in E. now subst.
  - intro H. exists k. split; [easy|apply String.eqb_refl].
Qed.

Lemma with_key_snoc (key : Entry -> string) (k : string) (entries : list Entry)
  (e : Entry) :
  with_key key k (entries ++ [e]) =
  (with_key key k entries ++ (if key e =? k then [e] else []))%list.
Proof.
  unfold with_key. rewrite filter_app. reflexivity.
Qed.

Lemma with_key_absent (key : Entry -> string) (k : string) (entries : list Entry) :
  ~ In k (map key entries) -> with_key key k entries = [].
Proof.
  intro H. unfold with_key. induction entries as [|e r IH]; simpl; [reflexivity|].
  destruct (String.eqb_spec (key e) k) as [E|N].
  - destruct H. now left.
  - apply IH. intro Hin. apply H. now right.
Qed.

Lemma buckets_keys (key : Entry -> string) (entries : list Entry) :
  map fst (buckets key entries) = first_keys (map key entries).
Proof.
  unfold buckets. rewrite map_map. simpl. apply map_id.
Qed.

(** One turn of the grouping loop takes the buckets of a sequence to the
    buckets of the sequence extended by the record. *)
Lemma group_step_buckets (key : Entry -> string) (entries : list Entry) (e : Entry) :
  group_step key (buckets key entries) e = Ok (buckets key (entries ++ [e])).
Proof.
  unfold group_step.
  destruct (contains (key e) (buckets key entries)) eqn:C.
  - apply contains_In in C. rewrite buckets_keys, first_keys_In in C.
    unfold buckets at 1 2.
    rewrite (getitem_map (fun k => with_key key k entries)).
    2: now apply first_keys_In.
    simpl. f_equal.
    rewrite (setitem_map (fun k => with_key key k entries)).
    2: apply first_keys_NoDup.
    2: now apply first_keys_In.
    unfold buckets. rewrite map_app. simpl. rewrite first_keys_snoc.
    apply existsb_eqb_In in C. rewrite C.
    apply map_ext. intro k. rewrite with_key_snoc.
    rewrite (String.eqb_sym k (key e)).
    destruct (String.eqb_spec (key e) k) as [E|N].
    + now subst.
    + now rewrite app_nil_r.
  - assert (A : ~ In (key e) (map fst (buckets key entries))).
    { intro H. apply contains_In in H. congruence. }
    rewrite (setitem_absent _ _ _ A), (getitem_last _ _ _ A). simpl.
    rewrite (setitem_last _ _ _ _ A). f_equal.
    rewrite buckets_keys, first_keys_In in A.
    unfold buckets. rewrite map_app. simpl. rewrite first_keys_snoc.
    destruct (existsb (String.eqb (key e)) (map key entries)) eqn:X.
    + apply existsb_eqb_In in X. contradiction.
    + rewrite map_app. simpl. f_equal.
      * apply map_ext_in. intros k Hk. rewrite with_key_snoc.
        destruct (String.eqb_spec (key e) k) as [E|N].
        -- subst. rewrite first_keys_In in Hk. contradiction.
        -- now rewrite app_nil_r.
      * rewrite with_key_snoc, (with_key_absent _ _ _ A), String.eqb_refl.
        reflexivity.
Qed.

Lemma group_loop_app (key : Entry -> string) (d : dict (list Entry))
  (before after : list Entry) :
  group_loop key d (before ++ after) =
  (d' <- group_loop key d before ;; group_loop key d' after).
Proof.
  revert d. induction before as [|e r IH]; intro d; simpl.
  - reflexivity.
  - destruct (group_step key d e); simpl; auto.
Qed.

(** The loop computes the buckets of the specification, and never raises. *)
Lemma group_by_buckets (key : Entry -> string) (entries : list Entry) :
  group_by key entries = Ok (buckets key entries).
Proof.
  induction entries as [|e r IH] using rev_ind.
  - reflexivity.
  - unfold group_by in *. rewrite group_loop_app, IH. simpl.
    now rewrite group_step_buckets.
Qed.

Lemma filter_disjoint_app {A : Type} (p q : A -> bool) (l : list A) :
  (forall x, p x = true -> q x = false) ->
  Permutation (filter p l ++ filter q l) (filter (fun x => p x || q x) l).
Proof.
  intro D. induction l as [|x r IH]; simpl.
  - constructor.
  - destruct (p x) eqn:P; simpl.
    + rewrite (D x P). now constructor.
    + destruct (q x); [|exact IH].
      apply Permutation_sym, Permutation_cons_app, Permutation_sym, IH.
Qed.

Lemma buckets_partition (key : Entry -> string) (keys : list string)
  (entries : list Entry) :
  NoDup keys ->
  Permutation
    (flat_map (fun k => with_key key k entries) keys)
    (filter (fun e => existsb (String.eqb (key e)) keys) entries).
Proof.
  induction keys as [|a r IH]; intro ND; simpl.
  - rewrite filter_false. constructor.
  - inversion ND as [|? ? Ha NDr]; subst.
    eapply Permutation_trans.
    + apply Permutation_app_head, (IH NDr).
    + apply (filter_disjoint_app (fun e => key e =? a)).
      intros e E. apply String.eqb_eq in E. subst.
      destruct (existsb (String.eqb (key e)) r) eqn:X; [|reflexivity].
      apply existsb_eqb_In in X. contradiction.
Qed.

Lemma buckets_flatten (key : Entry -> string) (entries : list Entry) :
  Permutation (List.concat (map snd (buckets key entries))) entries.
Proof.
  unfold buckets. rewrite map_map. simpl. rewrite <- flat_map_concat_map.
  eapply Permutation_trans.
  - apply buckets_partition, first_keys_NoDup.
  - rewrite (filter_ext_in _ (fun _ => true)); [now rewrite filter_true|].
    intros e He. apply existsb_eqb_In, first_keys_In, in_map, He.
Qed.

(** ** Rounding to binary64 *)

Open Scope Q_scope.

Lemma pow2_pos (q : Z) : 0 < pow2 q.
Proof. apply Qpower_0_lt. reflexivity. Qed.

Lemma pow2_add (a b : Z) : pow2 (a + b) == pow2 a * pow2 b.
Proof. apply Qpower_plus. discriminate. Qed.

Lemma pow2_le (a b : Z) : (a <= b)%Z -> pow2 a <= pow2 b.
Proof. intro H. apply Qpower_le_compat_l; [exact H|discriminate]. Qed.

Lemma pow2_int (q : Z) : (0 <= q)%Z -> pow2 q == inject_Z (2 ^ q).
Proof. intro H. unfold pow2. now rewrite (Zpower_Qpower 2 q H). Qed.

Lemma pow2_opp (q : Z) : pow2 (- q) * pow2 q == 1.
Proof.
  rewrite <- pow2_add. replace (- q + q)%Z with 0%Z by lia. reflexivity.
Qed.

Lemma div_pow2 (x : Q) (q : Z) : x / pow2 q == x * pow2 (- q).
Proof.
  unfold Qdiv, pow2. now rewrite Qpower_opp.
Qed.

Lemma Qle_of_cross (A B N D : Z) :
  (0 < B)%Z -> (0 < D)%Z -> (A * D <= N * B)%Z ->
  inject_Z A / inject_Z B <= inject_Z N / inject_Z D.
Proof.
  intros HB HD H. destruct B as [|b|b]; try lia. destruct D as [|d|d]; try lia.
  unfold Qle, Qdiv, Qmult, Qinv, inject_Z. simpl. lia.
Qed.

Lemma ilog2_low (x : Q) : 0 < x -> pow2 (ilog2 x) <= x.
Proof.
  intro Hx. unfold ilog2.
  destruct (Qle_bool _ x) eqn:E; [now apply Qle_bool_iff|].
  destruct x as [n d]. cbn [Qnum Qden] in *.
  assert (Hn : (0 < n)%Z) by (unfold Qlt in Hx; simpl in Hx; lia).
  pose proof (Z.log2_spec n Hn) as [Ln _].
  pose proof (Z.log2_spec (Zpos d) eq_refl) as [_ Ld].
  pose proof (Z.log2_nonneg n) as Na. pose proof (Z.log2_nonneg (Zpos d)) as Nb.
  set (a := Z.log2 n) in *. set (b := Z.log2 (Zpos d)) in *.
  replace (a - b - 1)%Z with (a + - (b + 1))%Z by lia.
  rewrite pow2_add.
  assert (P : pow2 (- (b + 1)) == / pow2 (b + 1)).
  { unfold pow2. apply Qpower_opp. }
  rewrite P, (pow2_int a Na), (pow2_int (b + 1)) by lia.
  rewrite (Qmake_Qdiv n d).
  apply Qle_of_cross; try lia.
  assert (0 < 2 ^ a)%Z by (apply Z.pow_pos_nonneg; lia).
  replace (Z.succ b) with (b + 1)%Z in Ld by lia. nia.
Qed.

Lemma rne_bounds (y : Q) : (Qfloor y <= rne y <= Qfloor y + 1)%Z.
Proof.
  unfold rne. destruct (_ ?= _); [destruct (Z.even _)|..]; lia.
Qed.

Lemma rne_le_int (y : Q) (j : Z) : y <= inject_Z j -> (rne y <= j)%Z.
Proof.
  intro H. pose proof (Qfloor_resp_le _ _ H) as F. rewrite Qfloor_Z in F.
  pose proof (Qfloor_le y) as L.
  unfold rne. destruct (Qcompare_spec (y - inject_Z (Qfloor y)) (1 # 2)) as [E|E|E].
  - assert (Qfloor y <> j).
    { intro X. rewrite X in E. lra. }
    destruct (Z.even _); lia.
  - exact F.
  - assert (Qfloor y <> j).
    { intro X. rewrite X in E. lra. }
    lia.
Qed.

Lemma rne_ge_int (y : Q) (j : Z) : inject_Z j <= y -> (j <= rne y)%Z.
Proof.
  intro H. pose proof (Qfloor_resp_le _ _ H) as F. rewrite Qfloor_Z in F.
  pose proof (rne_bounds y). lia.
Qed.


Lemma round64_pos_value (x : Q) :
  round64_pos x ==
  inject_Z (rne (x / pow2 (Z.max (ilog2 x - 52) (-1074))))
  * pow2 (Z.max (ilog2 x - 52) (-1074)).
Proof. unfold round64_pos. apply Qred_correct. Qed.

Lemma ilog2_small (x : Q) : 0 < x -> x < pow2 53 -> (ilog2 x <= 52)%Z.
Proof.
  intros Hx Hs. destruct (Z_le_gt_dec (ilog2 x) 52) as [L|G]; [exact L|].
  pose proof (ilog2_low x Hx) as Lo.
  pose proof (pow2_le 53 (ilog2 x) ltac:(lia)) as M. lra.
Qed.

Lemma inject_Z_lt_pow2_53 (k : Z) : (k < 2 ^ 53)%Z -> inject_Z k < pow2 53.
Proof.
  intro H. rewrite (pow2_int 53) by lia. rewrite <- Zlt_Qlt. exact H.
Qed.

Lemma round64_pos_nonneg (x : Q) : 0 < x -> 0 <= round64_pos x.
Proof.
  intro Hx. rewrite round64_pos_value.
  set (q := Z.max (ilog2 x - 52) (-1074)).
  pose proof (pow2_pos q) as P.
  assert (M : (0 <= rne (x / pow2 q))%Z).
  { apply rne_ge_int. change (inject_Z 0) with 0.
    apply Qle_shift_div_l; [exact P|]. lra. }
  apply Qmult_le_0_compat; [|lra].
  change 0 with (inject_Z 0). now rewrite <- Zle_Qle.
Qed.

Lemma round64_pos_upper (x : Q) (k : Z) :
  0 < x -> x <= inject_Z k -> (k < 2 ^ 53)%Z -> round64_pos x <= inject_Z k.
Proof.
  intros Hx Hk Hb. rewrite round64_pos_value.
  pose proof (inject_Z_lt_pow2_53 k Hb) as Hs.
  pose proof (ilog2_small x Hx ltac:(lra)) as He.
  set (q := Z.max (ilog2 x - 52) (-1074)).
  assert (Hq : (q <= 0)%Z) by (unfold q; lia).
  pose proof (pow2_pos q) as P. pose proof (pow2_pos (- q)) as P'.
  assert (J : x / pow2 q <= inject_Z (k * 2 ^ (- q))).
  { rewrite div_pow2, inject_Z_mult, <- (pow2_int (- q)) by lia.
    apply Qmult_le_compat_r; lra. }
  apply rne_le_int in J. rewrite Zle_Qle in J.
  apply (Qmult_le_compat_r _ _ (pow2 q)) in J; [|lra].
  eapply Qle_trans; [exact J|].
  rewrite inject_Z_mult, <- (pow2_int (- q)) by lia.
  rewrite <- Qmult_assoc, pow2_opp. lra.
Qed.


Lemma round64_pos_lower (x : Q) (j : Z) :
  (0 < j < 2 ^ 53)%Z -> inject_Z j <= x -> inject_Z j <= round64_pos x.
Proof.
  intros [Hj Hb] Hx.
  assert (J0 : 0 < inject_Z j) by (change 0 with (inject_Z 0); now rewrite <- Zlt_Qlt).
  assert (X : 0 < x) by lra.
  pose proof (ilog2_low x X) as Lo.
  rewrite round64_pos_value.
  set (q := Z.max (ilog2 x - 52) (-1074)).
  pose proof (pow2_pos q) as P. pose proof (pow2_pos (- q)) as P'.
  destruct (Z_le_gt_dec q 0) as [L|G].
  - assert (J : inject_Z (j * 2 ^ (- q)) <= x / pow2 q).
    { rewrite div_pow2, inject_Z_mult, <- (pow2_int (- q)) by lia.
      apply Qmult_le_compat_r; lra. }
    apply rne_ge_int in J. rewrite Zle_Qle in J.
    apply (Qmult_le_compat_r _ _ (pow2 q)) in J; [|lra].
    eapply Qle_trans; [|exact J].
    rewrite inject_Z_mult, <- (pow2_int (- q)) by lia.
    rewrite <- Qmult_assoc, pow2_opp. lra.
  - assert (Eq : q = (ilog2 x - 52)%Z) by (unfold q in *; lia).
    assert (J : inject_Z (2 ^ 52) <= x / pow2 q).
    { rewrite <- (pow2_int 52) by lia.
      replace 52%Z with (ilog2 x + - q)%Z by lia.
      rewrite pow2_add, div_pow2. apply Qmult_le_compat_r; lra. }
    apply rne_ge_int in J. rewrite Zle_Qle in J.
    apply (Qmult_le_compat_r _ _ (pow2 q)) in J; [|lra].
    eapply Qle_trans; [|exact J].
    rewrite <- (pow2_int 52) by lia. rewrite <- pow2_add.
    pose proof (inject_Z_lt_pow2_53 j Hb) as S.
    pose proof (pow2_le 53 (52 + q) ltac:(lia)). lra.
Qed.

Lemma round64_zero (x : Q) : x == 0 -> round64 x = 0.
Proof.
  intro H. unfold round64. destruct (Qcompare_spec x 0); [reflexivity|lra|lra].
Qed.

Lemma round64_of_pos (x : Q) : 0 < x -> round64 x = round64_pos x.
Proof.
  intro H. unfold round64. destruct (Qcompare_spec x 0); [lra|lra|reflexivity].
Qed.

Lemma round64_of_neg (x : Q) : x < 0 -> round64 x = - round64_pos (- x).
Proof.
  intro H. unfold round64. destruct (Qcompare_spec x 0); [lra|reflexivity|lra].
Qed.

Lemma round64_nonneg (x : Q) : 0 <= x -> 0 <= round64 x.
Proof.
  intro H. destruct (Qlt_le_dec 0 x) as [P|N].
  - rewrite (round64_of_pos x P). now apply round64_pos_nonneg.
  - rewrite (round64_zero x); lra.
Qed.

Lemma round64_le_int (x : Q) (k : Z) :
  (- 2 ^ 53 < k < 2 ^ 53)%Z -> x <= inject_Z k -> round64 x <= inject_Z k.
Proof.
  intros [Hl Hu] H.
  destruct (Qlt_le_dec 0 x) as [P|N].
  - rewrite (round64_of_pos x P). now apply round64_pos_upper.
  - destruct (Qlt_le_dec x 0) as [P'|Z'].
    + rewrite (round64_of_neg x P').
      assert (X : 0 < - x) by lra.
      destruct (Z_lt_le_dec k 0) as [K|K].
      * assert (J : inject_Z (- k) <= round64_pos (- x)).
        { apply round64_pos_lower; [lia|]. rewrite inject_Z_opp. lra. }
        rewrite inject_Z_opp in J. lra.
      * pose proof (round64_pos_nonneg _ X).
        assert (0 <= inject_Z k)
          by (change 0 with (inject_Z 0); now rewrite <- Zle_Qle).
        lra.
    + rewrite (round64_zero x); lra.
Qed.

Lemma round64_ge_int (x : Q) (k : Z) :
  (- 2 ^ 53 < k < 2 ^ 53)%Z -> inject_Z k <= x -> inject_Z k <= round64 x.
Proof.
  intros [Hl Hu] H.
  destruct (Qlt_le_dec 0 x) as [P|N].
  - rewrite (round64_of_pos x P).
    destruct (Z_lt_le_dec 0 k) as [K|K].
    + apply round64_pos_lower; [lia|exact H].
    + pose proof (round64_pos_nonneg _ P).
      assert (inject_Z k <= 0)
        by (change 0 with (inject_Z 0); now rewrite <- Zle_Qle).
      lra.
  - destruct (Qlt_le_dec x 0) as [P'|Z'].
    + rewrite (round64_of_neg x P').
      assert (X : 0 < - x) by lra.
      assert (J : round64_pos (- x) <= inject_Z (- k)).
      { apply round64_pos_upper; [exact X| |lia]. rewrite inject_Z_opp. lra. }
      rewrite inject_Z_opp in J. lra.
    + rewrite (round64_zero x); lra.
Qed.




Lemma ilog2_high (x : Q) : 0 < x -> x < pow2 (ilog2 x + 1).
Proof.
  intro Hx. unfold ilog2.
  destruct (Qle_bool _ x) eqn:E.
  - destruct x as [n d]. cbn [Qnum Qden] in *.
    assert (Hn : (0 < n)%Z) by (unfold Qlt in Hx; simpl in Hx; lia).
    pose proof (Z.log2_spec n Hn) as [_ Ln].
    pose proof (Z.log2_spec (Zpos d) eq_refl) as [Ld _].
    pose proof (Z.log2_nonneg n) as Na. pose proof (Z.log2_nonneg (Zpos d)) as Nb.
    set (a := Z.log2 n) in *. set (b := Z.log2 (Zpos d)) in *.
    replace (a - b + 1)%Z with ((a + 1) + - b)%Z by lia.
    rewrite pow2_add.
    assert (P : pow2 (- b) == / pow2 b) by (unfold pow2; apply Qpower_opp).
    rewrite P, (pow2_int (a + 1)), (pow2_int b) by lia.
    rewrite (Qmake_Qdiv n d).
    assert (0 < 2 ^ b)%Z by (apply Z.pow_pos_nonneg; lia).
    replace (Z.succ a) with (a + 1)%Z in Ln by lia.
    destruct (2 ^ b)%Z as [|pb|pb] eqn:Eb; try lia.
    unfold Qlt, Qdiv, Qmult, Qinv, inject_Z. simpl. nia.
  - replace (Z.log2 (Qnum x) - Z.log2 (Z.pos (Qden x)) - 1 + 1)%Z
      with (Z.log2 (Qnum x) - Z.log2 (Z.pos (Qden x)))%Z by lia.
    apply Qnot_le_lt. intro H. apply Qle_bool_iff in H. congruence.
Qed.

Close Scope Q_scope.

(** ** Properties of the metrics *)

Lemma tally_fold (entries : list Entry) (t0 : Tally) :
  let t := fold_left tally_step entries t0 in
  t_up_count t = t_up_count t0 + len (filter is_up entries)
  /\ t_critical_count t
     = t_critical_count t0 + len (filter (fun e => negb (is_up e)) entries)
  /\ t_cpu_values t = (t_cpu_values t0 ++ present cpu entries)%list
  /\ t_disk_values t = (t_disk_values t0 ++ present disk entries)%list.
Proof.
  revert t0. unfold len.
  induction entries as [|e r IH]; intro t0; simpl.
  - rewrite !app_nil_r. repeat split; lia.
  - destruct (IH (tally_step t0 e)) as (U & C & P & D).
    rewrite U, C, P, D. unfold tally_step. simpl.
    destruct (is_up e), (cpu e), (disk e); simpl;
      rewrite <- ?app_assoc; simpl; repeat split; lia.
Qed.

Lemma tally_counts (entries : list Entry) :
  let t := tally entries in
  t_up_count t = len (filter is_up entries)
  /\ t_critical_count t = len (filter (fun e => negb (is_up e)) entries)
  /\ t_cpu_values t = present cpu entries
  /\ t_disk_values t = present disk entries.
Proof.
  destruct (tally_fold entries (mkTally 0 0 0 [] [])) as (U & C & P & D).
  unfold tally. simpl in *. rewrite U, C, P, D. repeat split.
Qed.

Lemma up_and_down_partition (entries : list Entry) :
  len (filter is_up entries) + len (filter (fun e => negb (is_up e)) entries)
  = len entries.
Proof.
  unfold len. induction entries as [|e r IH]; cbn [filter]; [reflexivity|].
  destruct (is_up e); cbn [negb List.length]; lia.
Qed.


Lemma quotient_pos (a b : Z) :
  0 < b -> (inject_Z a / inject_Z b == a # Z.to_pos b)%Q.
Proof.
  intro Hb. unfold Qdiv, Qinv, Qmult, Qeq, inject_Z.
  destruct b as [|p|p]; try lia. simpl. lia.
Qed.

Lemma sum_fold (values : list Z) (acc : Z) :
  fold_left Z.add values acc = acc + sum values.
Proof.
  unfold sum. revert acc. induction values as [|v r IH]; intro acc; simpl.
  - lia.
  - rewrite (IH (acc + v)), (IH v). lia.
Qed.

Lemma sum_bounds (values : list Z) :
  Forall in_percent_range values -> 0 <= sum values <= 100 * len values.
Proof.
  unfold len. induction 1 as [|v r Hv Hr IH].
  - simpl. unfold sum. simpl. lia.
  - unfold sum in *. simpl. rewrite sum_fold. unfold sum.
    unfold in_percent_range in Hv. cbn [List.length]. lia.
Qed.

Lemma max_bounds (values : list Z) (v : Z) :
  in_percent_range v -> Forall in_percent_range values ->
  in_percent_range (max v values).
Proof.
  intros Hv H. revert v Hv. unfold max.
  induction H as [|w r Hw Hr IH]; intros v Hv; simpl.
  - exact Hv.
  - apply IH. unfold in_percent_range in *. lia.
Qed.

Lemma quotient_le (s n hi : Z) :
  0 < n -> s <= hi * n -> (inject_Z s / inject_Z n <= inject_Z hi)%Q.
Proof.
  intros Hn H. rewrite (quotient_pos _ _ Hn).
  unfold Qle, inject_Z. cbn [Qnum Qden]. rewrite Z2Pos.id by exact Hn. lia.
Qed.

Lemma quotient_ge (s n lo : Z) :
  0 < n -> lo * n <= s -> (inject_Z lo <= inject_Z s / inject_Z n)%Q.
Proof.
  intros Hn H. rewrite (quotient_pos _ _ Hn).
  unfold Qle, inject_Z. cbn [Qnum Qden]. rewrite Z2Pos.id by exact Hn. lia.
Qed.

Lemma average_bounds (values : list Z) :
  Forall in_percent_range values -> (0 <= average values <= 100)%Q.
Proof.
  intro H. destruct values as [|v r].
  - simpl. split; discriminate.
  - unfold average, true_div.
    assert (L : 0 < len (v :: r)) by (unfold len; simpl; lia).
    pose proof (sum_bounds _ H) as B.
    split.
    + apply (round64_ge_int _ 0); [lia|]. apply quotient_ge; lia.
    + apply (round64_le_int _ 100); [lia|]. apply quotient_le; lia.
Qed.

Lemma maximum_bounds (values : list Z) :
  Forall in_percent_range values -> in_percent_range (maximum values).
Proof.
  intro H. destruct values as [|v r]; simpl.
  - unfold in_percent_range. lia.
  - inversion H; subst. now apply max_bounds.
Qed.

(** ** The loader and malformed lines *)


(** The same with a numeric field that is neither [N/A] nor an integer. *)
Lemma bad_number_aborts_the_load :
  let bad := "2024-01-01T00:00:00, web01, prod, True, high, 60, GOOD" ++ newline in
  let good := "2024-01-01T00:00:05, db01, prod, True, 50, 60, GOOD" ++ newline in
  parse_log_line bad = Raise ValueError
  /\ load_log_file [good; bad; good] = Raise ValueError.
Proof. repeat split. Qed.



(** A line of eight fields is not rejected: the eighth field is ignored.
    A line of spaces, whose trimmed content is the single empty field, is
    not rejected either: it is taken for an empty line. *)
Lemma eight_fields_yield_a_record :
  let line := "t, web01, prod, True, 50, 60, GOOD, extra" in
  (line <> ""
   /\ List.length (fields line) = 8%nat
   /\ parse_log_line line
      = Ok (Some (mkEntry "t" "web01" "prod" true (Some 50) (Some 60) "GOOD")))
  /\ ("  " <> ""
      /\ List.length (fields "  ") = 1%nat
      /\ parse_log_line "  " = Ok None).
Proof. repeat split; discriminate. Qed.

(** C2 (as amended): for a line whose trimmed content is not empty, the
    parser raises [IndexError], and so produces no record, exactly when the
    trimmed content splits into fewer than 7 comma-separated fields. *)
Theorem too_few_fields_raise (line : string) :
  blank line = false ->
  parse_log_line line = Raise IndexError <-> (List.length (fields line) < 7)%nat.
Proof.
  intro B. rewrite (parse_nonblank line B).
  rewrite <- (length_map strip (fields line)).
  destruct (map strip (fields line))
    as [|ts [|sn [|se [|up [|c [|d [|st tl]]]]]]]; simpl;
    try (split; [lia|reflexivity]).
  split; [|lia]. intro H.
  destruct (parse_metric_cases c) as [Ec|[vc Ec]]; rewrite Ec in H; simpl in H;
    [discriminate|].
  destruct (parse_metric_cases d) as [Ed|[vd Ed]]; rewrite Ed in H; simpl in H;
    discriminate.
Qed.

Lemma too_few_fields_raise_witness :
  parse_log_line "2024-01-01T00:00:00, web01, prod, True, 50" = Raise IndexError.
Proof.
  apply (too_few_fields_raise "2024-01-01T00:00:00, web01, prod, True, 50").
  - reflexivity.
  - simpl. lia.
Defined.

(** C9: a line that is empty or made of whitespace only makes
    [parse_log_line] return [None] without raising, and [load_log_file]
    passes over it: the entry list is the one of the file without the
    line. *)
Theorem blank_line_is_skipped (line : string) :
  blank line = true ->
  parse_log_line line = Ok None
  /\ forall before after,
       load_log_file (before ++ line :: after) = load_log_file (before ++ after).
Proof.
  intro B. split; [now apply parse_blank|].
  intros before after. unfold load_log_file. rewrite !load_loop_app.
  destruct (load_loop [] before) as [acc|x]; simpl; [|reflexivity].
  now rewrite (parse_blank line B).
Qed.

Lemma blank_line_is_skipped_witness :
  parse_log_line ("   " ++ newline) = Ok None
  /\ forall before after,
       load_log_file (before ++ ("   " ++ newline) :: after)
       = load_log_file (before ++ after).
Proof.
  apply (blank_line_is_skipped ("   " ++ newline)). reflexivity.
Defined.

(** ** The metrics of a bucket *)

Example scenario_two_checks :
  compute_server_metrics
    [mkEntry "t1" "web01" "prod" true (Some 50) (Some 60) "GOOD";
     mkEntry "t2" "web01" "prod" false None None "CRITICAL"]
  = mkMetrics 2 1 0 1 50 50 60 60 50.
Proof. vm_compute. reflexivity. Qed.

Example scenario_empty_bucket :
  compute_server_metrics [] = mkMetrics 0 0 0 0 0 0 0 0 0.
Proof. reflexivity. Qed.

(** C5: the up count and the critical count of a bucket add up to its total
    number of checks, the length of the bucket. *)
Theorem up_plus_critical_is_total (entries : list Entry) :
  let m := compute_server_metrics entries in
  up_count m + critical_count m = total_checks m
  /\ total_checks m = Z.of_nat (List.length entries).
Proof.
  destruct (tally_counts entries) as (U & C & _).
  unfold compute_server_metrics. simpl. rewrite U, C.
  split; [apply up_and_down_partition|reflexivity].
Qed.







(** A record whose readings are outside the percent range is accepted by the
    parser, and the metrics of its bucket leave the range with it. *)
Lemma out_of_range_reading_is_averaged :
  let line := "t, web01, prod, True, 250, -5, WARNING" in
  let e := mkEntry "t" "web01" "prod" true (Some 250) (Some (-5)) "WARNING" in
  let m := compute_server_metrics [e] in
  parse_log_line line = Ok (Some e)
  /\ present cpu [e] = [250]
  /\ (avg_cpu m == 250)%Q /\ max_cpu m = 250
  /\ (avg_disk m == -5)%Q /\ max_disk m = -5.
Proof. repeat split. Qed.

(** C4 (as amended): the averages and maxima of a bucket are those of the
    CPU and disk values that are present in its records, and all four are 0
    when no value is present; when the present values lie in [0, 100], which
    the parser does not check, so do the averages and the maxima. *)
Theorem averages_and_maxima (entries : list Entry) :
  let m := compute_server_metrics entries in
  (avg_cpu m = average (present cpu entries)
   /\ max_cpu m = maximum (present cpu entries)
   /\ avg_disk m = average (present disk entries)
   /\ max_disk m = maximum (present disk entries))
  /\ (present cpu entries = [] -> avg_cpu m = 0%Q /\ max_cpu m = 0)
  /\ (present disk entries = [] -> avg_disk m = 0%Q /\ max_disk m = 0)
  /\ (Forall in_percent_range (present cpu entries) ->
      (0 <= avg_cpu m <= 100)%Q /\ 0 <= max_cpu m <= 100)
  /\ (Forall in_percent_range (present disk entries) ->
      (0 <= avg_disk m <= 100)%Q /\ 0 <= max_disk m <= 100).
Proof.
  destruct (tally_counts entries) as (_ & _ & C & D).
  unfold compute_server_metrics.
  cbn [avg_cpu max_cpu avg_disk max_disk]. rewrite C, D.
  split; [repeat split|]. split; [|split; [|split]].
  - intros ->. split; reflexivity.
  - intros ->. split; reflexivity.
  - intro H. split; [now apply average_bounds|now apply maximum_bounds].
  - intro H. split; [now apply average_bounds|now apply maximum_bounds].
Qed.

Lemma averages_and_maxima_witness :
  let entries :=
    [mkEntry "t1" "web01" "prod" true (Some 40) (Some 60) "GOOD";
     mkEntry "t2" "web01" "prod" false None None "CRITICAL";
     mkEntry "t3" "web01" "prod" true (Some 90) (Some 70) "WARNING"] in
  let down := [mkEntry "t2" "web01" "prod" false None None "CRITICAL"] in
  let m := compute_server_metrics entries in
  let m0 := compute_server_metrics down in
  ((0 <= avg_cpu m <= 100)%Q /\ 0 <= max_cpu m <= 100)
  /\ ((0 <= avg_disk m <= 100)%Q /\ 0 <= max_disk m <= 100)
  /\ (avg_cpu m0 = 0%Q /\ max_cpu m0 = 0)
  /\ (avg_disk m0 = 0%Q /\ max_disk m0 = 0).
Proof.
  intros entries down m m0.
  destruct (averages_and_maxima entries) as (_ & _ & _ & Hcpu & Hdisk).
  destruct (averages_and_maxima down) as (_ & Zcpu & Zdisk & _).
  split; [|split; [|split]].
  - apply Hcpu. simpl. repeat constructor; unfold in_percent_range; lia.
  - apply Hdisk. simpl. repeat constructor; unfold in_percent_range; lia.
  - apply Zcpu. reflexivity.
  - apply Zdisk. reflexivity.
Defined.

(** ** Grouping *)

Example scenario_group_by_env :
  summarize_by_env
    [mkEntry "t1" "web01" "prod" true (Some 50) (Some 60) "GOOD";
     mkEntry "t2" "db01" "prod" true (Some 10) (Some 20) "GOOD";
     mkEntry "t3" "cache01" "dev" false None None "CRITICAL"]
  = Ok [("prod", [mkEntry "t1" "web01" "prod" true (Some 50) (Some 60) "GOOD";
                  mkEntry "t2" "db01" "prod" true (Some 10) (Some 20) "GOOD"]);
        ("dev", [mkEntry "t3" "cache01" "dev" false None None "CRITICAL"])].
Proof. reflexivity. Qed.

(** C6: for every key function and record sequence, grouping returns (it
    raises nothing) one bucket per key, in the order in which the keys first
    occur; the bucket of a key holds the records of that key in their
    original order, every record having been appended to the bucket of its
    key; and the buckets flattened in that order are a permutation of the
    sequence. *)
Theorem grouping_preserves_order (key : Entry -> string) (entries : list Entry) :
  exists summary,
    group_by key entries = Ok summary
    /\ map fst summary = first_keys (map key entries)
    /\ (forall k bucket, In (k, bucket) summary ->
          bucket = with_key key k entries)
    /\ (forall e, group_by key (entries ++ [e]) =
                  group_step key summary e)
    /\ Permutation (List.concat (map snd summary)) entries.
Proof.
  exists (buckets key entries). split; [apply group_by_buckets|].
  split; [apply buckets_keys|]. split; [|split].
  - intros k bucket H. unfold buckets in H. apply in_map_iff in H.
    destruct H as (k' & E & _). now inversion E.
  - intro e. now rewrite group_by_buckets, group_step_buckets.
  - apply buckets_flatten.
Qed.

(** ** Sorting the servers of an environment *)

Lemma ascii_compare_refl (c : ascii) : Ascii.compare c c = Eq.
Proof. unfold Ascii.compare. apply N.compare_refl. Qed.

Lemma ascii_compare_lt_trans (a b c : ascii) :
  Ascii.compare a b = Lt -> Ascii.compare b c = Lt -> Ascii.compare a c = Lt.
Proof.
  unfold Ascii.compare. rewrite !N.compare_lt_iff. apply N.lt_trans.
Qed.

Lemma str_compare_lt_trans (a b c : string) :
  String.compare a b = Lt -> String.compare b c = Lt -> String.compare a c = Lt.
Proof.
  revert b c. induction a as [|x a IH]; intros [|y b] [|z c]; simpl;
    try easy.
  destruct (Ascii.compare x y) eqn:XY; try easy;
    destruct (Ascii.compare y z) eqn:YZ; try easy; intros H1 H2.
  - apply Ascii.compare_eq_iff in XY, YZ. subst.
    rewrite ascii_compare_refl. eauto.
  - apply Ascii.compare_eq_iff in XY. subst. now rewrite YZ.
  - apply Ascii.compare_eq_iff in YZ. subst. now rewrite XY.
  - now rewrite (ascii_compare_lt_trans _ _ _ XY YZ).
Qed.

Lemma str_lt_trans (a b c : string) : str_lt a b -> str_lt b c -> str_lt a c.
Proof.
  unfold str_lt, String.ltb. intros H1 H2.
  destruct (String.compare a b) eqn:AB; try discriminate.
  destruct (String.compare b c) eqn:BC; try discriminate.
  now rewrite (str_compare_lt_trans _ _ _ AB BC).
Qed.

Lemma str_lt_irrefl (a : string) : ~ str_lt a a.
Proof.
  unfold str_lt, String.ltb. pose proof (String.compare_antisym a a) as H.
  destruct (String.compare a a); simpl in H; discriminate.
Qed.

Lemma str_lt_total (a b : string) :
  a <> b -> String.ltb a b = false -> str_lt b a.
Proof.
  unfold str_lt, String.ltb. intros N H.
  rewrite (String.compare_antisym b a).
  destruct (String.compare a b) eqn:AB; simpl; try discriminate.
  - apply String.compare_eq_iff in AB. contradiction.
  - reflexivity.
Qed.

Lemma insert_sorted_perm (x : string) (l : list string) :
  Permutation (insert_sorted x l) (x :: l).
Proof.
  induction l as [|y r IH]; simpl.
  - apply Permutation_refl.
  - destruct (String.ltb x y).
    + apply Permutation_refl.
    + eapply Permutation_trans; [apply perm_skip, IH|apply perm_swap].
Qed.

Lemma insert_sorted_strict (x : string) (l : list string) :
  StronglySorted str_lt l -> ~ In x l ->
  StronglySorted str_lt (insert_sorted x l).
Proof.
  induction 1 as [|y r Hr IH Hy]; intro Hx; simpl.
  - repeat constructor.
  - destruct (String.ltb x y) eqn:XY.
    + constructor; [now constructor|]. constructor; [exact XY|].
      eapply Forall_impl; [|exact Hy]. intros z Hz.
      now apply (str_lt_trans x y z).
    + assert (YX : str_lt y x).
      { apply str_lt_total; [|exact XY]. intro E. apply Hx. now left. }
      constructor.
      * apply IH. intro H. apply Hx. now right.
      * eapply Permutation_Forall.
        -- apply Permutation_sym, insert_sorted_perm.
        -- now constructor.
Qed.

Lemma sorted_fold (l acc : list string) :
  StronglySorted str_lt acc -> NoDup (acc ++ l) ->
  StronglySorted str_lt (fold_left (fun a x => insert_sorted x a) l acc)
  /\ Permutation (fold_left (fun a x => insert_sorted x a) l acc) (acc ++ l).
Proof.
  revert acc. induction l as [|x r IH]; intros acc S ND; simpl.
  - rewrite app_nil_r. split; [exact S|apply Permutation_refl].
  - assert (P : Permutation (insert_sorted x acc ++ r) (acc ++ x :: r)).
    { eapply Permutation_trans.
      - apply Permutation_app_tail, insert_sorted_perm.
      - apply Permutation_middle. }
    destruct (IH (insert_sorted x acc)) as [S' P'].
    + apply insert_sorted_strict; [exact S|].
      intro H. apply NoDup_remove_2 in ND. apply ND, in_or_app. now left.
    + eapply Permutation_NoDup; [apply Permutation_sym, P|exact ND].
    + split; [exact S'|]. eapply Permutation_trans; [exact P'|exact P].
Qed.

Lemma sorted_strict (l : list string) :
  NoDup l -> StronglySorted str_lt (sorted l) /\ Permutation (sorted l) l.
Proof.
  intro ND. apply (sorted_fold l []); [constructor|exact ND].
Qed.

(** Two strictly sorted lists with the same elements are the same list. *)
Lemma strictly_sorted_unique (l1 l2 : list string) :
  StronglySorted str_lt l1 -> StronglySorted str_lt l2 ->
  (forall x, In x l1 <-> In x l2) -> l1 = l2.
Proof.
  intro S1. revert l2. induction S1 as [|a r1 S1 IH F1]; intros l2 S2 E.
  - destruct l2 as [|b r2]; [reflexivity|].
    destruct (proj2 (E b)). now left.
  - destruct S2 as [|b r2 S2 F2].
    + destruct (proj1 (E a)). now left.
    + rewrite Forall_forall in F1, F2.
      assert (a = b) as <-.
      { destruct (proj1 (E a) (or_introl eq_refl)) as [Hb|Hb]; [easy|].
        destruct (proj2 (E b) (or_introl eq_refl)) as [Ha|Ha]; [easy|].
        destruct (str_lt_irrefl a).
        apply (str_lt_trans a b a); [now apply F1|now apply F2]. }
      f_equal. apply IH; [exact S2|]. intro x. split; intro H.
      * destruct (proj1 (E x) (or_intror H)) as [Hx|Hx]; [|exact Hx].
        subst. destruct (str_lt_irrefl x). now apply F1.
      * destruct (proj2 (E x) (or_intror H)) as [Hx|Hx]; [|exact Hx].
        subst. destruct (str_lt_irrefl x). now apply F2.
Qed.

Lemma set_of_In (x : string) (l : list string) : In x (set_of l) <-> In x l.
Proof.
  revert x. induction l as [|y r IH]; intro x; simpl; [tauto|].
  destruct (existsb (String.eqb y) (set_of r)) eqn:X.
  - rewrite existsb_eqb_In, IH in X. rewrite IH.
    split; [tauto|]. intros [<-|H]; assumption.
  - simpl. rewrite IH. tauto.
Qed.

Lemma set_of_NoDup (l : list string) : NoDup (set_of l).
Proof.
  induction l as [|y r IH]; simpl; [constructor|].
  destruct (existsb (String.eqb y) (set_of r)) eqn:X; [exact IH|].
  constructor; [|exact IH]. intro H. rewrite <- existsb_eqb_In in H. congruence.
Qed.

(** The sorted list does not depend on the order in which the set is
    iterated. *)
Lemma sorted_of_any_order (order elements : list string) :
  NoDup elements -> Permutation order elements ->
  sorted order = sorted elements.
Proof.
  intros ND P.
  assert (ND' : NoDup order).
  { eapply Permutation_NoDup; [apply Permutation_sym, P|exact ND]. }
  destruct (sorted_strict _ ND) as [S1 P1].
  destruct (sorted_strict _ ND') as [S2 P2].
  apply strictly_sorted_unique; [exact S2|exact S1|].
  intro x. split; intro H.
  - eapply Permutation_in; [apply Permutation_sym, P1|].
    eapply Permutation_in; [exact P|].
    eapply Permutation_in; [exact P2|exact H].
  - eapply Permutation_in; [apply Permutation_sym, P2|].
    eapply Permutation_in; [apply Permutation_sym, P|].
    eapply Permutation_in; [exact P1|exact H].
Qed.

(** ** The reports *)

Lemma write_all_console (texts : list string) (out : Sink) :
  console (write_all texts out) = (console out ++ texts)%list.
Proof.
  unfold write_all. revert out.
  induction texts as [|t r IH]; intro out; simpl.
  - now rewrite app_nil_r.
  - rewrite IH. simpl. now rewrite <- app_assoc.
Qed.

Lemma report_console (block : string -> list Entry -> list string)
  (summary : dict (list Entry)) (out : Sink) :
  console
    (fold_left (fun o item => write_all (block (fst item) (snd item)) o)
       summary out)
  = (console out
     ++ flat_map (fun item => block (fst item) (snd item)) summary)%list.
Proof.
  revert out. induction summary as [|item r IH]; intro out; simpl.
  - now rewrite app_nil_r.
  - rewrite IH, write_all_console. now rewrite <- app_assoc.
Qed.

Lemma open_report_console (report_file_path : option string) :
  console (open_report report_file_path) = [].
Proof.
  destruct report_file_path as [path|]; simpl; [|reflexivity].
  now destruct (path =? "").
Qed.

(** The line [j] of the block [i] of a report whose blocks all have [n]
    lines. *)
Lemma nth_error_blocks {A : Type} (f : A -> list string) (n : nat)
  (l : list A) (i j : nat) (x : A) :
  (forall y, List.length (f y) = n) ->
  nth_error l i = Some x -> (j < n)%nat ->
  nth_error (flat_map f l) (n * i + j) = nth_error (f x) j.
Proof.
  intros Hn. revert i. induction l as [|y r IH]; intros i Hi Hj.
  - now destruct i.
  - destruct i as [|i]; simpl in *.
    + injection Hi as ->. rewrite Nat.mul_0_r. simpl.
      apply nth_error_app1. now rewrite Hn.
    + rewrite nth_error_app2 by (rewrite Hn; lia).
      rewrite Hn. replace (n * S i + j - n)%nat with (n * i + j)%nat by lia.
      now apply IH.
Qed.

(** C10: in the per-server report, the heading of the bucket of a server
    shows the [env] field of the first record of the bucket, whatever the
    later records hold, and ["unknown"] when the bucket is empty. *)
Theorem server_report_env_label (format_1f : Q -> string)
  (summary_serv : dict (list Entry)) (report_file_path : option string)
  (i : nat) (server : string) (entries_for_server : list Entry) :
  nth_error summary_serv i = Some (server, entries_for_server) ->
  nth_error
    (console (generate_server_report format_1f summary_serv report_file_path))
    (10 * i + 1)
  = Some ("SERVER: " ++ server ++ " (env: "
          ++ match entries_for_server with
             | first :: _ => env first
             | [] => "unknown"
             end
          ++ ")").
Proof.
  intro H. unfold generate_server_report.
  rewrite report_console, open_report_console. simpl app.
  rewrite (nth_error_blocks _ 10 _ i 1 (server, entries_for_server));
    [reflexivity| |exact H|lia].
  intros [s es]. reflexivity.
Qed.

Lemma server_report_env_label_witness :
  nth_error
    (console
       (generate_server_report (fun _ => "0.0")
          [("web01", [mkEntry "t1" "web01" "prod" true (Some 50) (Some 60) "GOOD";
                      mkEntry "t2" "web01" "dev" false None None "CRITICAL"]);
           ("db01", [])]
          None))
    (10 * 0 + 1)
  = Some "SERVER: web01 (env: prod)".
Proof.
  exact (server_report_env_label (fun _ => "0.0")
          [("web01", [mkEntry "t1" "web01" "prod" true (Some 50) (Some 60) "GOOD";
                      mkEntry "t2" "web01" "dev" false None None "CRITICAL"]);
           ("db01", [])]
          None 0%nat "web01" _ eq_refl).
Defined.

Example empty_bucket_is_unknown :
  nth_error
    (console (generate_server_report (fun _ => "0.0") [("db01", [])] None)) 1
  = Some "SERVER: db01 (env: unknown)".
Proof. reflexivity. Qed.

(** C8: in the per-environment report, the servers line of a bucket shows
    the distinct [server] fields of its records, each once, in increasing
    lexicographic order, whatever the order in which the set is iterated;
    and the three records web01 (prod), db01 (prod), cache01 (dev) give the
    bucket prod the servers db01, web01 and the bucket dev the server
    cache01. *)
Theorem env_report_lists_servers (format_1f : Q -> string) :
  (forall (summary_env : dict (list Entry)) (report_file_path : option string)
          (i : nat) (env : string) (entries_for_env : list Entry),
     nth_error summary_env i = Some (env, entries_for_env) ->
     let names := servers_in_env entries_for_env in
     nth_error
       (console (generate_env_report format_1f summary_env report_file_path))
       (11 * i + 2)
     = Some ("Servers in this env: " ++ join ", " names)
     /\ StronglySorted str_lt names
     /\ (forall s, In s names <-> In s (map server entries_for_env))
     /\ (forall order,
           Permutation order (set_of (map server entries_for_env)) ->
           sorted order = names))
  /\ (let records :=
        [mkEntry "t1" "web01" "prod" true (Some 50) (Some 60) "GOOD";
         mkEntry "t2" "db01" "prod" true (Some 10) (Some 20) "GOOD";
         mkEntry "t3" "cache01" "dev" false None None "CRITICAL"] in
      exists prod dev,
        summarize_by_env records = Ok [("prod", prod); ("dev", dev)]
        /\ servers_in_env prod = ["db01"; "web01"]
        /\ servers_in_env dev = ["cache01"]
        /\ env_block format_1f "prod" prod
           = separator :: "ENVIRONMENT: prod"
             :: "Servers in this env: db01, web01"
             :: metrics_lines format_1f (compute_server_metrics prod)).
Proof.
  split.
  - intros summary_env report_file_path i env entries_for_env H names.
    destruct (sorted_strict _ (set_of_NoDup (map server entries_for_env)))
      as [S P].
    split; [|split; [exact S|split]].
    + unfold generate_env_report.
      rewrite report_console, open_report_console. simpl app.
      rewrite (nth_error_blocks _ 11 _ i 2 (env, entries_for_env));
        [reflexivity| |exact H|lia].
      intros [s es]. reflexivity.
    + intro s. rewrite <- (set_of_In s (map server entries_for_env)).
      unfold names, servers_in_env. split; apply Permutation_in;
        [exact P|apply Permutation_sym, P].
    + intros order Ho. apply sorted_of_any_order; [apply set_of_NoDup|exact Ho].
  - eexists _, _. repeat split.
Qed.

Lemma env_report_lists_servers_witness :
  let entries :=
    [mkEntry "t1" "web01" "prod" true (Some 50) (Some 60) "GOOD";
     mkEntry "t2" "db01" "prod" true (Some 10) (Some 20) "GOOD";
     mkEntry "t3" "web01" "prod" true (Some 10) (Some 20) "GOOD"] in
  nth_error
    (console (generate_env_report (fun _ => "0.0") [("prod", entries)] None))
    (11 * 0 + 2)
  = Some "Servers in this env: db01, web01"
  /\ sorted ["web01"; "db01"] = servers_in_env entries.
Proof.
  intro entries.
  destruct (proj1 (env_report_lists_servers (fun _ => "0.0"))
              [("prod", entries)] None 0%nat "prod" entries eq_refl)
    as (Hline & _ & _ & Horder).
  split.
  - exact Hline.
  - apply Horder. apply perm_swap.
Defined.

(** ** The simulated check *)

Import ServerCheck.

Lemma randint_range (a b : Z) (g : Random) :
  a <= b -> a <= fst (randint a b g) <= b.
Proof.
  intro H. unfold randint, randbelow. simpl.
  pose proof (Z.mod_pos_bound (supply g (consumed g)) (b - a + 1)). lia.
Qed.

Example check_of_a_server_that_is_up :
  let w := mkWorld (mkRandom (fun n => Z.of_nat n + 300) 0) [] [] in
  let line := "2024-01-01T00:00:00, web01, prod, True, 99, 100, WARNING" ++ newline in
  log_file (check_server "web01" "2024-01-01T00:00:00" w) = [line]
  /\ parse_log_line line
     = Ok (Some (mkEntry "2024-01-01T00:00:00" "web01" "prod" true
                         (Some 99) (Some 100) "WARNING")).
Proof. split; reflexivity. Qed.

Example check_of_a_server_that_is_down :
  let w := mkWorld (mkRandom (fun n => Z.of_nat n + 2) 0) [] [] in
  let line := "2024-01-01T00:00:00, auth02, dev, False, N/A, N/A, CRITICAL" ++ newline in
  log_file (check_server "auth02" "2024-01-01T00:00:00" w) = [line]
  /\ parse_log_line line
     = Ok (Some (mkEntry "2024-01-01T00:00:00" "auth02" "dev" false
                         None None "CRITICAL")).
Proof. split; reflexivity. Qed.

(** C7: whatever the generator draws, a simulated check appends one line to
    the log, the line of a record that, when the server is down, has the
    text N/A for both its CPU and disk usage and, when the server is up, has
    for both an integer between 0 and 100. *)
Theorem check_server_invariant (server_name timestamp : string) (w : World) :
  exists server_env c,
    log_file (check_server server_name timestamp w)
    = (log_file w ++ [log_line timestamp server_name server_env c])%list
    /\ c = fst (simulated_check (random w))
    /\ if check_is_up c
       then exists cpu disk,
              check_cpu c = Number cpu /\ check_disk c = Number disk
              /\ in_percent_range cpu /\ in_percent_range disk
       else check_cpu c = Text "N/A" /\ check_disk c = Text "N/A"
            /\ format_reading (check_cpu c) = "N/A"
            /\ format_reading (check_disk c) = "N/A".
Proof.
  unfold check_server, simulated_check, simulate_metrics.
  destruct (choice true [true; false; true] (random w)) as [up g1].
  pose proof (randint_range 0 100 g1) as Hcpu.
  destruct (randint 0 100 g1) as [cpu g2].
  pose proof (randint_range 0 100 g2) as Hdisk.
  destruct (randint 0 100 g2) as [disk g3].
  simpl in Hcpu, Hdisk.
  eexists _, _. split; [reflexivity|]. split; [reflexivity|].
  destruct up; simpl.
  - exists cpu, disk. unfold in_percent_range. repeat split; lia.
  - repeat split.
Qed.

(** ** Further properties of the metrics *)

Lemma tally_warning_fold (entries : list Entry) (t0 : Tally) :
  t_warning_count (fold_left tally_step entries t0)
  = t_warning_count t0 + count is_warning entries.
Proof.
  unfold count, len. revert t0.
  induction entries as [|e r IH]; intro t0; cbn [fold_left filter].
  - cbn [List.length]. lia.
  - rewrite IH. unfold tally_step. cbn [t_warning_count].
    unfold is_warning at 2.
    destruct (status e =? "WARNING"); cbn [List.length]; lia.
Qed.

Lemma count_bounds (p : Entry -> bool) (entries : list Entry) :
  0 <= count p entries <= len entries.
Proof.
  unfold count, len. pose proof (filter_length_le p entries). lia.
Qed.

(** X1: the warning count of a bucket is the number of its records whose status
    is WARNING, whether the server is up or not, and is at most the total
    number of checks. *)
Theorem warning_count_value (entries : list Entry) :
  let m := compute_server_metrics entries in
  warning_count m = count is_warning entries
  /\ 0 <= warning_count m <= total_checks m.
Proof.
  unfold compute_server_metrics. cbn [warning_count total_checks].
  unfold tally. rewrite tally_warning_fold. cbn [t_warning_count].
  split; [lia|]. pose proof (count_bounds is_warning entries). lia.
Qed.

Lemma max_fold_upper (values : list Z) (v : Z) :
  v <= max v values /\ Forall (fun x => x <= max v values) values.
Proof.
  unfold max. revert v. induction values as [|w r IH]; intro v; simpl.
  - split; [lia|constructor].
  - destruct (IH (Z.max v w)) as [H1 H2]. split; [lia|].
    constructor; [lia|exact H2].
Qed.

Lemma max_fold_attained (values : list Z) (v : Z) :
  max v values = v \/ In (max v values) values.
Proof.
  unfold max. revert v. induction values as [|w r IH]; intro v; simpl.
  - now left.
  - destruct (IH (Z.max v w)) as [H|H].
    + rewrite H. destruct (Z.max_spec v w) as [[_ E]|[_ E]]; rewrite E; auto.
    + right. now right.
Qed.

Lemma sum_le_max (values : list Z) (b : Z) :
  Forall (fun x => x <= b) values -> sum values <= b * len values.
Proof.
  unfold len. induction 1 as [|v r Hv Hr IH].
  - unfold sum. simpl. lia.
  - unfold sum in *. simpl. rewrite sum_fold. unfold sum.
    cbn [List.length]. lia.
Qed.

Lemma maximum_is_greatest (values : list Z) :
  values <> [] ->
  In (maximum values) values
  /\ Forall (fun x => x <= maximum values) values
  /\ (- 2 ^ 53 < maximum values < 2 ^ 53 ->
      (average values <= inject_Z (maximum values))%Q).
Proof.
  intro N. destruct values as [|v r]; [contradiction|].
  assert (U : Forall (fun x => x <= maximum (v :: r)) (v :: r)).
  { cbn [maximum]. destruct (max_fold_upper r v) as [H1 H2].
    now constructor. }
  split; [|split; [exact U|]].
  - cbn [maximum]. destruct (max_fold_attained r v) as [H|H].
    + rewrite H. now left.
    + now right.
  - intro R. unfold average, true_div.
    assert (L : 0 < len (v :: r)) by (unfold len; cbn [List.length]; lia).
    pose proof (sum_le_max _ _ U) as B.
    apply round64_le_int; [exact R|]. now apply quotient_le.
Qed.

(** A single reading of [2^53 + 3] is not a float: its average is the float
    [2^53 + 4], above the reading, which is also the maximum. *)
Example average_above_maximum :
  let m := compute_server_metrics
             [mkEntry "t" "web01" "prod" true (Some 9007199254740995)
                (Some 10) "GOOD"] in
  max_cpu m = 9007199254740995
  /\ avg_cpu m = inject_Z 9007199254740996
  /\ (inject_Z (max_cpu m) < avg_cpu m)%Q.
Proof. vm_compute. repeat split. Qed.



Lemma filter_permutation {A : Type} (p : A -> bool) (l l' : list A) :
  Permutation l l' -> Permutation (filter p l) (filter p l').
Proof.
  induction 1 as [|x l l' H IH|x y l|l l' l'' H1 IH1 H2 IH2]; simpl.
  - constructor.
  - destruct (p x); [now constructor|exact IH].
  - destruct (p x), (p y); try apply Permutation_refl. apply perm_swap.
  - eapply Permutation_trans; eassumption.
Qed.

Lemma flat_map_permutation {A B : Type} (f : A -> list B) (l l' : list A) :
  Permutation l l' -> Permutation (flat_map f l) (flat_map f l').
Proof.
  induction 1 as [|x l l' H IH|x y l|l l' l'' H1 IH1 H2 IH2]; simpl.
  - constructor.
  - now apply Permutation_app_head.
  - rewrite !app_assoc. apply Permutation_app_tail, Permutation_app_comm.
  - eapply Permutation_trans; eassumption.
Qed.

Lemma count_permutation (p : Entry -> bool) (l l' : list Entry) :
  Permutation l l' -> count p l = count p l'.
Proof.
  intro H. unfold count, len.
  now rewrite (Permutation_length (filter_permutation p _ _ H)).
Qed.

Lemma sum_cons (v : Z) (values : list Z) : sum (v :: values) = v + sum values.
Proof. unfold sum. simpl. apply sum_fold. Qed.

Lemma sum_permutation (l l' : list Z) : Permutation l l' -> sum l = sum l'.
Proof.
  induction 1 as [|x l l' H IH|x y l|l l' l'' H1 IH1 H2 IH2].
  - reflexivity.
  - rewrite !sum_cons. lia.
  - rewrite !sum_cons. lia.
  - congruence.
Qed.

Lemma maximum_permutation (l l' : list Z) :
  Permutation l l' -> maximum l = maximum l'.
Proof.
  intro H. destruct l as [|v r].
  - apply Permutation_nil in H. now subst.
  - assert (N : v :: r <> []) by discriminate.
    assert (N' : l' <> []).
    { intro E. subst. apply Permutation_sym, Permutation_nil in H.
      discriminate. }
    destruct (maximum_is_greatest _ N) as (I & U & _).
    destruct (maximum_is_greatest _ N') as (I' & U' & _).
    rewrite Forall_forall in U, U'.
    apply (Permutation_in _ H) in I.
    apply (Permutation_in _ (Permutation_sym H)) in I'.
    apply Z.le_antisymm; auto.
Qed.

Lemma average_permutation (l l' : list Z) :
  Permutation l l' -> average l = average l'.
Proof.
  intro H. destruct l as [|v r].
  - apply Permutation_nil in H. now subst.
  - destruct l' as [|v' r'].
    + apply Permutation_sym, Permutation_nil in H. discriminate.
    + unfold average, len.
      now rewrite (sum_permutation _ _ H), (Permutation_length H).
Qed.

(** The summary of a bucket in terms of its records alone. *)
Lemma metrics_by_counting (entries : list Entry) :
  compute_server_metrics entries =
  {| total_checks := len entries;
     up_count := count is_up entries;
     warning_count := count is_warning entries;
     critical_count := count (fun e => negb (is_up e)) entries;
     avg_cpu := average (present cpu entries);
     max_cpu := maximum (present cpu entries);
     avg_disk := average (present disk entries);
     max_disk := maximum (present disk entries);
     uptime_pct :=
       if (0 <? len entries)%Z
       then float_mul (true_div (count is_up entries) (len entries)) 100
       else 0%Q |}.
Proof.
  destruct (tally_counts entries) as (U & C & P & D).
  unfold compute_server_metrics. rewrite U, C, P, D.
  unfold tally at 1. rewrite tally_warning_fold. reflexivity.
Qed.

(** X3: the summary of a bucket does not depend on the order of its records. *)
Theorem metrics_ignore_order (entries entries' : list Entry) :
  Permutation entries entries' ->
  compute_server_metrics entries = compute_server_metrics entries'.
Proof.
  intro H. rewrite !metrics_by_counting.
  rewrite (count_permutation is_up _ _ H),
    (count_permutation is_warning _ _ H),
    (count_permutation (fun e => negb (is_up e)) _ _ H).
  rewrite (average_permutation _ _ (flat_map_permutation _ _ _ H
             : Permutation (present cpu entries) (present cpu entries'))),
    (maximum_permutation _ _ (flat_map_permutation _ _ _ H
             : Permutation (present cpu entries) (present cpu entries'))),
    (average_permutation _ _ (flat_map_permutation _ _ _ H
             : Permutation (present disk entries) (present disk entries'))),
    (maximum_permutation _ _ (flat_map_permutation _ _ _ H
             : Permutation (present disk entries) (present disk entries'))).
  unfold len. now rewrite (Permutation_length H).
Qed.

Lemma metrics_ignore_order_witness :
  let a := mkEntry "t1" "web01" "prod" true (Some 40) (Some 60) "GOOD" in
  let b := mkEntry "t2" "web01" "prod" false None None "CRITICAL" in
  compute_server_metrics [a; b] = compute_server_metrics [b; a].
Proof.
  intros a b. apply (metrics_ignore_order [a; b] [b; a]). apply perm_swap.
Defined.

(** ** Further properties of grouping *)

Lemma group_by_returns (key : Entry -> string) (entries : list Entry)
  (summary : dict (list Entry)) :
  group_by key entries = Ok summary -> summary = buckets key entries.
Proof. rewrite group_by_buckets. congruence. Qed.

(** X4: in the result of grouping, the keys are distinct, no bucket is empty and
    every record of a bucket carries the key of the bucket. *)
Theorem buckets_are_not_empty (key : Entry -> string) (entries : list Entry)
  (summary : dict (list Entry)) :
  group_by key entries = Ok summary ->
  NoDup (map fst summary)
  /\ forall k bucket,
       In (k, bucket) summary ->
       bucket <> [] /\ Forall (fun e => key e = k) bucket.
Proof.
  intro H. apply group_by_returns in H. subst summary. split.
  - rewrite buckets_keys. apply first_keys_NoDup.
  - intros k bucket Hin. unfold buckets in Hin. apply in_map_iff in Hin.
    destruct Hin as (k' & E & Hk). injection E as <- <-.
    rewrite first_keys_In, in_map_iff in Hk. destruct Hk as (e & Ek & He).
    split.
    + intro Hnil.
      assert (Hf : In e (with_key key k' entries)).
      { unfold with_key. apply filter_In. split; [exact He|].
        now apply String.eqb_eq. }
      rewrite Hnil in Hf. exact Hf.
    + apply Forall_forall. intros x Hx. unfold with_key in Hx.
      apply filter_In in Hx. now apply String.eqb_eq.
Qed.

Lemma buckets_are_not_empty_witness :
  let a := mkEntry "t1" "web01" "prod" true (Some 40) (Some 60) "GOOD" in
  let b := mkEntry "t2" "db01" "prod" false None None "CRITICAL" in
  NoDup (map fst [("web01", [a]); ("db01", [b])])
  /\ forall k bucket,
       In (k, bucket) [("web01", [a]); ("db01", [b])] ->
       bucket <> [] /\ Forall (fun e => server e = k) bucket.
Proof.
  intros a b. apply (buckets_are_not_empty server [a; b]). reflexivity.
Defined.

Lemma count_app (p : Entry -> bool) (l l' : list Entry) :
  count p (l ++ l') = count p l + count p l'.
Proof.
  unfold count, len. rewrite filter_app, length_app. lia.
Qed.

Lemma count_buckets (p : Entry -> bool) (d : dict (list Entry)) :
  sum (map (fun item => count p (snd item)) d)
  = count p (List.concat (map snd d)).
Proof.
  induction d as [|item r IH]; simpl.
  - reflexivity.
  - rewrite sum_cons, count_app, IH. reflexivity.
Qed.

Lemma len_count (entries : list Entry) :
  len entries = count (fun _ => true) entries.
Proof. unfold count. now rewrite filter_true. Qed.

(** X5: grouping loses and duplicates nothing: over the buckets of a grouping,
    the total, up, warning and critical counts add up to those of the
    whole sequence. *)
Theorem counts_add_up_over_buckets (key : Entry -> string)
  (entries : list Entry) (summary : dict (list Entry)) :
  group_by key entries = Ok summary ->
  let whole := compute_server_metrics entries in
  let part (field : Metrics -> Z) :=
    sum (map (fun item => field (compute_server_metrics (snd item))) summary) in
  part total_checks = total_checks whole
  /\ part up_count = up_count whole
  /\ part warning_count = warning_count whole
  /\ part critical_count = critical_count whole.
Proof.
  intro H. apply group_by_returns in H. subst summary.
  pose proof (buckets_flatten key entries) as P.
  cbv zeta. rewrite metrics_by_counting.
  cbn [total_checks up_count warning_count critical_count].
  repeat split.
  - rewrite (map_ext _ (fun item => count (fun _ => true) (snd item))).
    + rewrite count_buckets, len_count. now apply count_permutation.
    + intro item. rewrite metrics_by_counting. apply len_count.
  - rewrite (map_ext _ (fun item => count is_up (snd item))).
    + rewrite count_buckets. now apply count_permutation.
    + intro item. now rewrite metrics_by_counting.
  - rewrite (map_ext _ (fun item => count is_warning (snd item))).
    + rewrite count_buckets. now apply count_permutation.
    + intro item. now rewrite metrics_by_counting.
  - rewrite (map_ext _ (fun item => count (fun e => negb (is_up e)) (snd item))).
    + rewrite count_buckets. now apply count_permutation.
    + intro item. now rewrite metrics_by_counting.
Qed.

Lemma counts_add_up_over_buckets_witness :
  let a := mkEntry "t1" "web01" "prod" true (Some 40) (Some 60) "GOOD" in
  let b := mkEntry "t2" "db01" "prod" false None None "CRITICAL" in
  let c := mkEntry "t3" "web01" "prod" true (Some 90) (Some 70) "WARNING" in
  let summary := [("web01", [a; c]); ("db01", [b])] in
  sum (map (fun item => total_checks (compute_server_metrics (snd item))) summary)
  = total_checks (compute_server_metrics [a; b; c]).
Proof.
  intros a b c summary.
  exact (proj1 (counts_add_up_over_buckets server [a; b; c] summary eq_refl)).
Defined.

(** ** Further properties of the reports *)

Lemma write_all_file (texts : list string) (out : Sink) :
  file (write_all texts out)
  = option_map (fun written => (written ++ map with_newline texts)%list)
      (file out).
Proof.
  unfold write_all. revert out.
  induction texts as [|t r IH]; intro out; simpl.
  - destruct (file out); simpl; [now rewrite app_nil_r|reflexivity].
  - rewrite IH. simpl. destruct (file out); simpl; [|reflexivity].
    now rewrite <- app_assoc.
Qed.

Lemma report_file (block : string -> list Entry -> list string)
  (summary : dict (list Entry)) (out : Sink) :
  file
    (fold_left (fun o item => write_all (block (fst item) (snd item)) o)
       summary out)
  = option_map
      (fun written =>
         (written
          ++ map with_newline
               (flat_map (fun item => block (fst item) (snd item)) summary))%list)
      (file out).
Proof.
  revert out. induction summary as [|item r IH]; intro out; simpl.
  - destruct (file out); simpl; [now rewrite app_nil_r|reflexivity].
  - rewrite IH, write_all_file. destruct (file out); simpl; [|reflexivity].
    now rewrite map_app, <- app_assoc.
Qed.

Lemma report_mirror (block : string -> list Entry -> list string)
  (summary : dict (list Entry)) (report_file_path : option string) :
  let out :=
    fold_left (fun o item => write_all (block (fst item) (snd item)) o)
      summary (open_report report_file_path) in
  file out =
    match report_file_path with
    | Some path =>
        if path =? "" then None else Some (map with_newline (console out))
    | None => None
    end.
Proof.
  cbv zeta. rewrite report_file, report_console, open_report_console.
  destruct report_file_path as [path|]; simpl; [|reflexivity].
  destruct (path =? ""); reflexivity.
Qed.

(** X6: a report file, when one is opened, holds exactly the texts that are
    printed, each followed by a newline; no file is written when no path, or
    the empty path, is given. *)
Theorem report_file_mirrors_console (format_1f : Q -> string)
  (summary : dict (list Entry)) (report_file_path : option string) :
  let copy (out : Sink) :=
    match report_file_path with
    | Some path =>
        if path =? "" then None else Some (map with_newline (console out))
    | None => None
    end in
  file (generate_server_report format_1f summary report_file_path)
  = copy (generate_server_report format_1f summary report_file_path)
  /\ file (generate_env_report format_1f summary report_file_path)
     = copy (generate_env_report format_1f summary report_file_path).
Proof.
  split; apply report_mirror.
Qed.

Lemma length_blocks {A : Type} (f : A -> list string) (n : nat) (l : list A) :
  (forall y, List.length (f y) = n) ->
  List.length (flat_map f l) = (n * List.length l)%nat.
Proof.
  intro Hn. induction l as [|y r IH]; cbn [flat_map List.length].
  - lia.
  - rewrite length_app, Hn, IH. lia.
Qed.

(** X7: a report prints one block per bucket, in the order of the dict: ten
    lines for a server, eleven for an environment; what is printed does not
    depend on the report file. *)
Theorem report_has_one_block_per_bucket (format_1f : Q -> string)
  (summary : dict (list Entry)) (report_file_path : option string) :
  let server_report := generate_server_report format_1f summary report_file_path in
  let env_report := generate_env_report format_1f summary report_file_path in
  console server_report
  = flat_map (fun item => server_block format_1f (fst item) (snd item)) summary
  /\ console env_report
     = flat_map (fun item => env_block format_1f (fst item) (snd item)) summary
  /\ List.length (console server_report) = (10 * List.length summary)%nat
  /\ List.length (console env_report) = (11 * List.length summary)%nat.
Proof.
  cbv zeta. unfold generate_server_report, generate_env_report.
  rewrite !report_console, !open_report_console. cbn [app].
  repeat split.
  - apply length_blocks. reflexivity.
  - apply length_blocks. reflexivity.
Qed.

Lemma main_returns (format_1f : Q -> string) (lines : list string)
  (output : string) (reports : Sink * Sink) :
  Pipeline.main format_1f lines output = Ok reports ->
  reports =
    (generate_server_report format_1f (buckets server (parsed_records lines))
       (Some ("server_" ++ output ++ ".txt")),
     generate_env_report format_1f (buckets env (parsed_records lines))
       (Some ("env_" ++ output ++ ".txt"))).
Proof.
  intro H. unfold Pipeline.main in H.
  destruct (load_log_file lines) as [entries|x] eqn:L; simpl in H;
    [|discriminate].
  apply load_loop_returns in L. simpl in L. subst entries.
  unfold summarize_by_server, summarize_by_env in H.
  rewrite !group_by_buckets in H. unfold bind in H.
  injection H as <-. reflexivity.
Qed.

Lemma nth_error_buckets (key : Entry -> string) (entries : list Entry)
  (i : nat) (k : string) :
  nth_error (first_keys (map key entries)) i = Some k ->
  nth_error (buckets key entries) i = Some (k, with_key key k entries)
  /\ exists first rest, with_key key k entries = first :: rest.
Proof.
  intro H. split.
  - unfold buckets. now rewrite nth_error_map, H.
  - apply nth_error_In in H. rewrite first_keys_In, in_map_iff in H.
    destruct H as (e & Ek & He).
    destruct (with_key key k entries) as [|first rest] eqn:W.
    + assert (Hf : In e (with_key key k entries)).
      { unfold with_key. apply filter_In. split; [exact He|].
        now apply String.eqb_eq. }
      rewrite W in Hf. destruct Hf.
    + now exists first, rest.
Qed.

(** X8: in the reports of [main], the i-th block of the server report is headed
    by the i-th distinct server of the file with the environment of the first
    record of that server, and the i-th block of the environment report by
    the i-th distinct environment followed by its servers; no heading of
    these reports shows the label of an empty bucket. *)
Theorem main_reports_follow_the_file (format_1f : Q -> string)
  (lines : list string) (output : string) (reports : Sink * Sink) :
  Pipeline.main format_1f lines output = Ok reports ->
  let entries := parsed_records lines in
  (forall i k,
     nth_error (first_keys (map server entries)) i = Some k ->
     exists first rest,
       with_key server k entries = first :: rest
       /\ nth_error (console (fst reports)) (10 * i + 1)
          = Some ("SERVER: " ++ k ++ " (env: " ++ env first ++ ")"))
  /\ (forall i k,
        nth_error (first_keys (map env entries)) i = Some k ->
        nth_error (console (snd reports)) (11 * i + 1)
        = Some ("ENVIRONMENT: " ++ k)
        /\ nth_error (console (snd reports)) (11 * i + 2)
           = Some ("Servers in this env: "
                   ++ join ", " (servers_in_env (with_key env k entries)))).
Proof.
  intro H. apply main_returns in H. subst reports. cbv zeta. cbn [fst snd].
  split.
  - intros i k Hk.
    destruct (nth_error_buckets server _ i k Hk) as (Hb & first & rest & W).
    exists first, rest. split; [exact W|].
    unfold generate_server_report.
    rewrite report_console, open_report_console. cbn [app].
    rewrite (nth_error_blocks
               (fun item => server_block format_1f (fst item) (snd item))
               10 _ i 1 _ (fun y => eq_refl) Hb) by lia.
    cbn [fst snd]. rewrite W. reflexivity.
  - intros i k Hk.
    destruct (nth_error_buckets env _ i k Hk) as (Hb & first & rest & W).
    unfold generate_env_report.
    rewrite report_console, open_report_console. cbn [app].
    rewrite (nth_error_blocks
               (fun item => env_block format_1f (fst item) (snd item))
               11 _ i 1 _ (fun y => eq_refl) Hb) by lia.
    rewrite (nth_error_blocks
               (fun item => env_block format_1f (fst item) (snd item))
               11 _ i 2 _ (fun y => eq_refl) Hb) by lia.
    cbn [fst snd]. rewrite W. split; reflexivity.
Qed.

Lemma main_reports_follow_the_file_witness :
  let lines :=
    ["t1, web01, prod, True, 50, 60, GOOD" ++ newline;
     "t2, db01, stage, False, N/A, N/A, CRITICAL" ++ newline] in
  let reports :=
    (generate_server_report (fun _ => "0.0")
       (buckets server (parsed_records lines)) (Some "server_report.txt"),
     generate_env_report (fun _ => "0.0")
       (buckets env (parsed_records lines)) (Some "env_report.txt")) in
  nth_error (console (fst reports)) (10 * 1 + 1)
  = Some "SERVER: db01 (env: stage)"
  /\ nth_error (console (snd reports)) (11 * 0 + 1)
     = Some "ENVIRONMENT: prod".
Proof.
  intros lines reports.
  destruct (main_reports_follow_the_file (fun _ => "0.0") lines "report"
              reports eq_refl) as [Hs He].
  split.
  - destruct (Hs 1%nat "db01" eq_refl) as (first & rest & W & Hline).
    injection W as <- _. exact Hline.
  - exact (proj1 (He 0%nat "prod" eq_refl)).
Defined.

(** ** Further properties of the loader *)





(** X10: when a line does not parse and all the lines before it do, the loader
    raises the exception of that line, whatever follows it, and the
    exception leaves [main] as well: no entry is returned and no report is
    written. *)
Theorem first_bad_line_raises (format_1f : Q -> string)
  (before after : list string) (line output : string) (x : exn) :
  forallb parses before = true ->
  parse_log_line line = Raise x ->
  load_log_file (before ++ line :: after) = Raise x
  /\ Pipeline.main format_1f (before ++ line :: after) output = Raise x.
Proof.
  intros Hb Hl.
  assert (L : load_log_file (before ++ line :: after) = Raise x)
    by now apply load_log_file_raises.
  split; [exact L|]. unfold Pipeline.main. now rewrite L.
Qed.

Lemma first_bad_line_raises_witness :
  let lines :=
    ["t1, web01, prod, True, 50, 60, GOOD" ++ newline;
     "t2, web01, prod, True, fifty, 60, GOOD" ++ newline;
     "t3, web01, prod"] in
  load_log_file lines = Raise ValueError
  /\ Pipeline.main (fun _ => "0.0") lines "report" = Raise ValueError.
Proof.
  apply (first_bad_line_raises (fun _ => "0.0")
           ["t1, web01, prod, True, 50, 60, GOOD" ++ newline]
           ["t3, web01, prod"]
           ("t2, web01, prod, True, fifty, 60, GOOD" ++ newline)
           "report" ValueError); reflexivity.
Defined.

(** ** Trimming and splitting *)

Lemma space_is_not_comma (c : ascii) :
  isspace c = true -> Ascii.eqb c "," = false.
Proof.
  intro H. destruct (Ascii.eqb_spec c ",") as [E|N]; [|reflexivity].
  subst. discriminate.
Qed.

Lemma blank_no_comma (s : string) : blank s = true -> no_comma s = true.
Proof.
  unfold no_comma. induction s as [|c r IH]; simpl; intro H; [reflexivity|].
  apply andb_true_iff in H as [Hc Hr].
  now rewrite (space_is_not_comma c Hc), (IH Hr).
Qed.

Lemma split_not_nil (sep : ascii) (s : string) : split sep s <> [].
Proof.
  destruct s as [|c r]; simpl; [discriminate|].
  destruct (Ascii.eqb c sep); [discriminate|].
  destruct (split sep r); discriminate.
Qed.

Lemma split_no_comma (s : string) : no_comma s = true -> split "," s = [s].
Proof.
  unfold no_comma. induction s as [|c r IH]; simpl; intro H; [reflexivity|].
  apply andb_true_iff in H as [Hc Hr]. apply negb_true_iff in Hc.
  now rewrite Hc, (IH Hr).
Qed.

Lemma split_app_comma (a b : string) :
  no_comma a = true -> split "," (a ++ String "," b) = a :: split "," b.
Proof.
  unfold no_comma. induction a as [|c r IH]; simpl; intro H; [reflexivity|].
  apply andb_true_iff in H as [Hc Hr]. apply negb_true_iff in Hc.
  now rewrite Hc, (IH Hr).
Qed.

Lemma split_single (s x : string) : split "," s = [x] -> x = s.
Proof.
  revert x. induction s as [|c r IH]; simpl; intros x H.
  - congruence.
  - destruct (Ascii.eqb c ",").
    + injection H as _ H. now destruct (split_not_nil "," r).
    + destruct (split "," r) as [|h t] eqn:E.
      * now destruct (split_not_nil "," r).
      * injection H as <- ->. now rewrite (IH h eq_refl).
Qed.

Lemma rstrip_empty_iff (s : string) : rstrip s = "" <-> blank s = true.
Proof.
  split; [|apply rstrip_blank].
  induction s as [|c r IH]; simpl; intro H; [reflexivity|].
  destruct (rstrip r) eqn:R; [|discriminate].
  destruct (isspace c); [|discriminate]. now rewrite IH.
Qed.

Lemma rstrip_cons (c : ascii) (r : string) :
  rstrip (String c r) =
  if isspace c && blank r then "" else String c (rstrip r).
Proof.
  simpl. destruct (blank r) eqn:B.
  - rewrite (rstrip_blank r B), andb_true_r. reflexivity.
  - rewrite andb_false_r. destruct (rstrip r) eqn:R; [|reflexivity].
    apply rstrip_empty_iff in R. congruence.
Qed.

Lemma blank_rstrip (s : string) : blank (rstrip s) = blank s.
Proof.
  induction s as [|c r IH]; [reflexivity|].
  rewrite rstrip_cons. destruct (isspace c && blank r) eqn:E.
  - simpl. now rewrite E.
  - simpl. now rewrite IH.
Qed.

Lemma lstrip_idem (s : string) : lstrip (lstrip s) = lstrip s.
Proof.
  induction s as [|c r IH]; simpl; [reflexivity|].
  destruct (isspace c) eqn:E; [exact IH|]. simpl. now rewrite E.
Qed.

Lemma rstrip_idem (s : string) : rstrip (rstrip s) = rstrip s.
Proof.
  induction s as [|c r IH]; [reflexivity|].
  rewrite rstrip_cons. destruct (isspace c && blank r) eqn:E; [reflexivity|].
  now rewrite rstrip_cons, blank_rstrip, E, IH.
Qed.

Lemma lstrip_rstrip (s : string) : lstrip (rstrip s) = rstrip (lstrip s).
Proof.
  induction s as [|c r IH]; [reflexivity|].
  rewrite rstrip_cons. cbn [lstrip]. destruct (isspace c) eqn:C; cbn [andb].
  - destruct (blank r) eqn:B.
    + now rewrite (lstrip_blank r B).
    + cbn [lstrip]. now rewrite C.
  - cbn [lstrip]. now rewrite C, rstrip_cons, C.
Qed.

Lemma strip_lstrip (s : string) : strip (lstrip s) = strip s.
Proof. unfold strip. now rewrite lstrip_idem. Qed.

Lemma strip_rstrip (s : string) : strip (rstrip s) = strip s.
Proof. unfold strip. now rewrite lstrip_rstrip, rstrip_idem. Qed.

Lemma strip_idem (s : string) : strip (strip s) = strip s.
Proof. unfold strip at 2. now rewrite strip_rstrip, strip_lstrip. Qed.

Lemma split_lstrip (s : string) :
  split "," (lstrip s) =
  match split "," s with
  | h :: t => lstrip h :: t
  | [] => []
  end.
Proof.
  induction s as [|c r IH]; [reflexivity|].
  simpl lstrip. destruct (isspace c) eqn:C.
  - rewrite IH. simpl split. rewrite (space_is_not_comma c C).
    destruct (split "," r) as [|h t] eqn:S.
    + now destruct (split_not_nil "," r).
    + simpl. now rewrite C.
  - simpl split. destruct (Ascii.eqb c ","); [reflexivity|].
    destruct (split "," r) as [|h t]; simpl; now rewrite C.
Qed.

Lemma split_rstrip (s : string) :
  split "," (rstrip s) = map_last rstrip (split "," s).
Proof.
  induction s as [|c r IH]; [reflexivity|].
  rewrite rstrip_cons. destruct (isspace c && blank r) eqn:E.
  - apply andb_true_iff in E as [C B].
    simpl split. rewrite (space_is_not_comma c C).
    rewrite (split_no_comma r (blank_no_comma r B)).
    cbn [map_last]. now rewrite rstrip_cons, C, B.
  - simpl split. destruct (Ascii.eqb c ",").
    + rewrite IH. destruct (split "," r) as [|h t] eqn:S; [|reflexivity].
      now destruct (split_not_nil "," r).
    + rewrite IH. destruct (split "," r) as [|h [|h2 t]] eqn:S.
      * now destruct (split_not_nil "," r).
      * cbn [map_last]. apply split_single in S. subst h.
        now rewrite rstrip_cons, E.
      * reflexivity.
Qed.

Lemma map_strip_map_last (l : list string) :
  map strip (map_last rstrip l) = map strip l.
Proof.
  induction l as [|x [|y r] IH]; [reflexivity| |].
  - simpl. now rewrite strip_rstrip.
  - change (map_last rstrip (x :: y :: r)) with (x :: map_last rstrip (y :: r)).
    change (map strip (x :: map_last rstrip (y :: r)))
      with (strip x :: map strip (map_last rstrip (y :: r))).
    now rewrite IH.
Qed.

(** Trimming the line before splitting it changes no field once the fields
    are trimmed. *)
Lemma fields_strip (line : string) :
  map strip (fields line) = map strip (split "," line).
Proof.
  unfold fields, strip at 2. rewrite split_rstrip, map_strip_map_last.
  rewrite split_lstrip. destruct (split "," line) as [|h t]; [reflexivity|].
  simpl. now rewrite strip_lstrip.
Qed.

Lemma blank_iff_fields (line : string) :
  blank line = true <-> map strip (split "," line) = [""].
Proof.
  split.
  - intro B. rewrite (split_no_comma _ (blank_no_comma _ B)). simpl.
    now rewrite (strip_blank _ B).
  - intro H. destruct (split "," line) as [|x [|y t]] eqn:S; try discriminate.
    apply split_single in S. subst x. injection H as H.
    now apply strip_empty_iff.
Qed.

(** ** Further properties of the parser *)

(** X12: whitespace around the fields of a line is insignificant: two lines whose
    comma-separated fields agree once trimmed parse to the same result, be
    it a record, [None] or an exception. *)
Theorem parse_ignores_field_whitespace (line line' : string) :
  map strip (split "," line) = map strip (split "," line') ->
  parse_log_line line = parse_log_line line'.
Proof.
  intro H. destruct (blank line) eqn:B.
  - assert (B' : blank line' = true).
    { apply blank_iff_fields. rewrite <- H. now apply blank_iff_fields. }
    now rewrite (parse_blank _ B), (parse_blank _ B').
  - assert (B' : blank line' = false).
    { destruct (blank line') eqn:E; [|reflexivity].
      apply blank_iff_fields in E. rewrite <- H in E.
      apply blank_iff_fields in E. congruence. }
    now rewrite (parse_nonblank _ B), (parse_nonblank _ B'), !fields_strip, H.
Qed.

Lemma parse_ignores_field_whitespace_witness :
  parse_log_line ("  t1 ,web01,  prod , True,50 , 60,GOOD  " ++ newline)
  = parse_log_line "t1,web01,prod,True,50,60,GOOD".
Proof.
  apply (parse_ignores_field_whitespace
           ("  t1 ,web01,  prod , True,50 , 60,GOOD  " ++ newline)
           "t1,web01,prod,True,50,60,GOOD").
  reflexivity.
Defined.

Lemma parse_metric_value_error (text : string) :
  parse_metric text = Raise ValueError
  <-> text <> "N/A" /\ int text = Raise ValueError.
Proof.
  unfold parse_metric. destruct (String.eqb_spec text "N/A") as [E|N].
  - split; [discriminate|]. now intros [H _].
  - destruct (int text) as [z|x]; simpl.
    + split; [discriminate|]. intros [_ H]. discriminate.
    + split; [|intros [_ H]; congruence].
      intro H. split; [exact N|congruence].
Qed.

Lemma parse_metric_none (text : string) :
  parse_metric text = Ok None <-> text = "N/A".
Proof.
  unfold parse_metric. destruct (String.eqb_spec text "N/A") as [E|N].
  - tauto.
  - destruct (int text) as [z|x]; simpl; split; intro H;
      try discriminate; contradiction.
Qed.

(** X13: the parser raises [ValueError] exactly for a line of at least seven
    fields whose fifth or sixth field, once trimmed, is neither N/A nor a
    text that [int] accepts; it never raises [KeyError]. *)
Theorem parse_value_error (line : string) :
  (parse_log_line line = Raise ValueError <->
   exists ts sn se up c d st tl,
     map strip (split "," line) = ts :: sn :: se :: up :: c :: d :: st :: tl
     /\ ((c <> "N/A" /\ int c = Raise ValueError)
         \/ (d <> "N/A" /\ int d = Raise ValueError)))
  /\ parse_log_line line <> Raise KeyError.
Proof.
  destruct (blank line) eqn:B.
  - rewrite (parse_blank _ B). apply blank_iff_fields in B. rewrite B.
    split; [|discriminate]. split; [discriminate|].
    intros (ts & sn & se & up & c & d & st & tl & E & _). discriminate.
  - rewrite (parse_nonblank _ B), fields_strip.
    destruct (map strip (split "," line))
      as [|ts [|sn [|se [|up [|c [|d [|st tl]]]]]]];
      try (split; [split; [discriminate|]|discriminate];
           intros (? & ? & ? & ? & ? & ? & ? & ? & E & _); discriminate).
    split; [split|].
    + intro H. exists ts, sn, se, up, c, d, st, tl. split; [reflexivity|].
      destruct (parse_metric_cases c) as [Ec|[vc Ec]].
      * left. now apply parse_metric_value_error.
      * rewrite Ec in H. simpl in H.
        destruct (parse_metric_cases d) as [Ed|[vd Ed]].
        -- right. now apply parse_metric_value_error.
        -- rewrite Ed in H. discriminate.
    + intros (? & ? & ? & ? & c' & d' & ? & ? & E & H).
      injection E as <- <- <- <- <- <- <- <-.
      destruct H as [H|H]; apply parse_metric_value_error in H.
      * now rewrite H.
      * destruct (parse_metric_cases c) as [Ec|[vc Ec]]; rewrite Ec; simpl;
          [reflexivity|now rewrite H].
    + destruct (parse_metric_cases c) as [Ec|[vc Ec]]; rewrite Ec; simpl;
        [discriminate|].
      destruct (parse_metric_cases d) as [Ed|[vd Ed]]; rewrite Ed; simpl;
        discriminate.
Qed.

Lemma parse_metric_ok (text : string) (o : option Z) :
  parse_metric text = Ok o ->
  (o = None <-> text = "N/A") /\ (forall v, o = Some v -> int text = Ok v).
Proof.
  unfold parse_metric. destruct (String.eqb_spec text "N/A") as [E|N].
  - intro H. injection H as <-. split; [tauto|discriminate].
  - destruct (int text) as [z|x]; simpl; intro H; [|discriminate].
    injection H as <-. split.
    + split; [discriminate|contradiction].
    + intros v Hv. congruence.
Qed.

(** X14: a record that the parser returns holds the first seven fields of the
    line, trimmed; later fields are ignored.  The server counts as up only
    for the exact text True, and a reading is absent only for the exact text
    N/A; any other reading is the integer that [int] reads. *)
Theorem parsed_record_fields (line : string) (e : Entry) :
  parse_log_line line = Ok (Some e) ->
  exists ts sn se up c d st tl,
    map strip (split "," line) = ts :: sn :: se :: up :: c :: d :: st :: tl
    /\ timestamp e = ts /\ server e = sn /\ env e = se /\ status e = st
    /\ (is_up e = true <-> up = "True")
    /\ (cpu e = None <-> c = "N/A")
    /\ (forall v, cpu e = Some v -> int c = Ok v)
    /\ (disk e = None <-> d = "N/A")
    /\ (forall v, disk e = Some v -> int d = Ok v).
Proof.
  intro H. destruct (blank line) eqn:B.
  - rewrite (parse_blank _ B) in H. discriminate.
  - rewrite (parse_nonblank _ B), fields_strip in H.
    destruct (map strip (split "," line))
      as [|ts [|sn [|se [|up [|c [|d [|st tl]]]]]]]; try discriminate.
    destruct (parse_metric c) as [vc|x] eqn:Ec; simpl in H; [|discriminate].
    destruct (parse_metric d) as [vd|x] eqn:Ed; simpl in H; [|discriminate].
    injection H as <-. cbn [timestamp server env status is_up cpu disk].
    destruct (parse_metric_ok _ _ Ec) as [Nc Sc].
    destruct (parse_metric_ok _ _ Ed) as [Nd Sd].
    exists ts, sn, se, up, c, d, st, tl.
    repeat split; try assumption.
    + destruct (String.eqb_spec up "True"); [easy|discriminate].
    + intros ->. reflexivity.
    + apply Nc.
    + apply Nc.
    + apply Nd.
    + apply Nd.
Qed.

Lemma parsed_record_fields_witness :
  exists ts sn se up c d st tl,
    map strip (split "," "t1, web01, prod, true, N/A, 07, GOOD, more")
    = ts :: sn :: se :: up :: c :: d :: st :: tl
    /\ timestamp (mkEntry "t1" "web01" "prod" false None (Some 7) "GOOD") = ts
    /\ server (mkEntry "t1" "web01" "prod" false None (Some 7) "GOOD") = sn
    /\ env (mkEntry "t1" "web01" "prod" false None (Some 7) "GOOD") = se
    /\ status (mkEntry "t1" "web01" "prod" false None (Some 7) "GOOD") = st
    /\ (is_up (mkEntry "t1" "web01" "prod" false None (Some 7) "GOOD") = true
        <-> up = "True")
    /\ (cpu (mkEntry "t1" "web01" "prod" false None (Some 7) "GOOD") = None
        <-> c = "N/A")
    /\ (forall v,
          cpu (mkEntry "t1" "web01" "prod" false None (Some 7) "GOOD") = Some v ->
          int c = Ok v)
    /\ (disk (mkEntry "t1" "web01" "prod" false None (Some 7) "GOOD") = None
        <-> d = "N/A")
    /\ (forall v,
          disk (mkEntry "t1" "web01" "prod" false None (Some 7) "GOOD") = Some v ->
          int d = Ok v).
Proof.
  apply (parsed_record_fields "t1, web01, prod, true, N/A, 07, GOOD, more").
  reflexivity.
Defined.

(** ** Writing an integer and reading it back *)

Lemma digit_is_not_space (c : ascii) : is_digit c = true -> isspace c = false.
Proof.
  unfold is_digit, isspace. intro H.
  apply andb_true_iff in H as [H1 H2].
  apply Nat.leb_le in H1, H2.
  repeat rewrite orb_false_iff. repeat split.
  - apply andb_false_iff. right. apply Nat.leb_gt. lia.
  - apply andb_false_iff. right. apply Nat.leb_gt. lia.
  - apply Nat.eqb_neq. lia.
  - apply Nat.eqb_neq. lia.
Qed.

Lemma lstrip_no_space (s : string) :
  all_chars (fun c => negb (isspace c)) s = true -> lstrip s = s.
Proof.
  destruct s as [|c r]; simpl; intro H; [reflexivity|].
  apply andb_true_iff in H as [Hc _]. apply negb_true_iff in Hc.
  now rewrite Hc.
Qed.

Lemma rstrip_no_space (s : string) :
  all_chars (fun c => negb (isspace c)) s = true -> rstrip s = s.
Proof.
  induction s as [|c r IH]; intro H; [reflexivity|].
  simpl in H. apply andb_true_iff in H as [Hc Hr]. apply negb_true_iff in Hc.
  now rewrite rstrip_cons, Hc, (IH Hr).
Qed.

Lemma strip_no_space (s : string) :
  all_chars (fun c => negb (isspace c)) s = true -> strip s = s.
Proof.
  intro H. unfold strip. now rewrite (lstrip_no_space s H), rstrip_no_space.
Qed.

Lemma int_digits_of_uint (d : Decimal.uint) (acc : positive) :
  int_digits (Z.pos acc) false (NilEmpty.string_of_uint d)
  = Some (Z.pos (Pos.of_uint_acc d acc)).
Proof.
  revert acc. induction d as [|d IH|d IH|d IH|d IH|d IH|d IH|d IH|d IH|d IH|d IH];
    intro acc; [reflexivity|..];
    cbn [NilEmpty.string_of_uint int_digits Pos.of_uint_acc];
    match goal with
    | |- context [is_digit ?c] => change (is_digit c) with true
    end;
    cbv iota; rewrite <- IH; f_equal;
    match goal with
    | |- context [digit_value ?c] =>
        let v := eval vm_compute in (digit_value c) in
        change (digit_value c) with v
    end;
    lia.
Qed.

Lemma int_digits_of_uint_zero (d : Decimal.uint) :
  int_digits 0 false (NilEmpty.string_of_uint d)
  = Some (Z.of_N (Pos.of_uint d)).
Proof.
  induction d as [|d IH|d IH|d IH|d IH|d IH|d IH|d IH|d IH|d IH|d IH];
    [reflexivity|exact IH|..];
    cbn [NilEmpty.string_of_uint int_digits Pos.of_uint];
    match goal with
    | |- context [is_digit ?c] => change (is_digit c) with true
    end;
    cbv iota;
    match goal with
    | |- context [digit_value ?c] =>
        let v := eval vm_compute in (digit_value c) in
        change (digit_value c) with v
    end;
    cbn [Z.mul Z.add Z.of_N]; apply int_digits_of_uint.
Qed.

Lemma int_magnitude_of_uint (d : Decimal.uint) :
  int_magnitude (NilZero.string_of_uint d) = Some (Z.of_N (Pos.of_uint d)).
Proof.
  destruct d as [|d|d|d|d|d|d|d|d|d|d]; [reflexivity|..].
  - exact (int_digits_of_uint_zero (Decimal.D0 d)).
  - exact (int_digits_of_uint_zero (Decimal.D1 d)).
  - exact (int_digits_of_uint_zero (Decimal.D2 d)).
  - exact (int_digits_of_uint_zero (Decimal.D3 d)).
  - exact (int_digits_of_uint_zero (Decimal.D4 d)).
  - exact (int_digits_of_uint_zero (Decimal.D5 d)).
  - exact (int_digits_of_uint_zero (Decimal.D6 d)).
  - exact (int_digits_of_uint_zero (Decimal.D7 d)).
  - exact (int_digits_of_uint_zero (Decimal.D8 d)).
  - exact (int_digits_of_uint_zero (Decimal.D9 d)).
Qed.

Lemma uint_string_chars (p : ascii -> bool) (d : Decimal.uint) :
  (forall c, is_digit c = true -> p c = true) ->
  all_chars p (NilZero.string_of_uint d) = true.
Proof.
  intro H.
  assert (G : forall u, all_chars p (NilEmpty.string_of_uint u) = true).
  { induction u; cbn [NilEmpty.string_of_uint all_chars];
      [reflexivity|..]; rewrite IHu, andb_true_r; now apply H. }
  destruct d; try apply G. cbn. rewrite andb_true_r. now apply H.
Qed.

Lemma str_of_int_chars (p : ascii -> bool) (z : Z) :
  (forall c, is_digit c = true -> p c = true) -> p "-"%char = true ->
  all_chars p (str_of_int z) = true.
Proof.
  intros H Hm. unfold str_of_int. destruct z as [|q|q]; cbn [Z.to_int].
  - now apply uint_string_chars.
  - now apply uint_string_chars.
  - cbn [NilZero.string_of_int all_chars].
    now rewrite Hm, uint_string_chars.
Qed.

Lemma str_of_int_strip (z : Z) : strip (str_of_int z) = str_of_int z.
Proof.
  apply strip_no_space, str_of_int_chars; [|reflexivity].
  intros c H. now rewrite (digit_is_not_space c H).
Qed.

Lemma str_of_int_no_comma (z : Z) : no_comma (str_of_int z) = true.
Proof.
  apply str_of_int_chars; [|reflexivity].
  intros c H. destruct (Ascii.eqb_spec c ",") as [E|N]; [|reflexivity].
  subst. discriminate.
Qed.

(** [int] reads back every integer that [str] writes. *)
Lemma int_str_of_int (z : Z) : int (str_of_int z) = Ok z.
Proof.
  unfold int. rewrite str_of_int_strip. unfold str_of_int.
  destruct z as [|q|q]; cbn [Z.to_int NilZero.string_of_int].
  - reflexivity.
  - pose proof (int_magnitude_of_uint (Pos.to_uint q)) as M.
    rewrite Unsigned.of_to in M. cbn [Z.of_N] in M.
    pose proof (Unsigned.to_uint_nonnil q) as NN.
    destruct (Pos.to_uint q); [contradiction|..];
      cbn [NilZero.string_of_uint NilEmpty.string_of_uint] in *;
      cbv iota beta; now rewrite M.
  - rewrite int_magnitude_of_uint, Unsigned.of_to. reflexivity.
Qed.

(** ** From a line of the checker back to its record *)

Lemma blank_app (a b : string) : blank (a ++ b) = blank a && blank b.
Proof.
  induction a as [|c r IH]; simpl; [reflexivity|].
  now rewrite IH, andb_assoc.
Qed.

Lemma blank_app_comma (a b : string) : blank (a ++ String "," b) = false.
Proof.
  rewrite blank_app. simpl. apply andb_false_r.
Qed.

Lemma rstrip_app_blank (s w : string) :
  blank w = true -> rstrip (s ++ w) = rstrip s.
Proof.
  intro B. induction s as [|c r IH]; [now apply rstrip_blank|].
  change (String c r ++ w) with (String c (r ++ w)).
  now rewrite !rstrip_cons, blank_app, B, andb_true_r, IH.
Qed.

Lemma strip_app_blank (s w : string) :
  blank w = true -> strip (s ++ w) = strip s.
Proof.
  intro B. unfold strip.
  now rewrite <- !lstrip_rstrip, (rstrip_app_blank s w B).
Qed.

Lemma strip_after_space (s : string) : strip (String " " s) = strip s.
Proof. reflexivity. Qed.

Lemma all_chars_app (p : ascii -> bool) (a b : string) :
  all_chars p (a ++ b) = all_chars p a && all_chars p b.
Proof.
  induction a as [|c r IH]; simpl; [reflexivity|].
  now rewrite IH, andb_assoc.
Qed.

Lemma split_field (a rest : string) :
  no_comma a = true ->
  split "," (String " " (a ++ String "," rest)) = String " " a :: split "," rest.
Proof.
  intro H. apply (split_app_comma (String " " a) rest).
  unfold no_comma in *. simpl. exact H.
Qed.

Lemma split_last_field (a : string) :
  no_comma a = true ->
  split "," (String " " (a ++ newline)) = [String " " (a ++ newline)].
Proof.
  intro H. apply split_no_comma. unfold no_comma in *. simpl.
  now rewrite all_chars_app, H.
Qed.

Lemma str_of_int_is_not_na (z : Z) : (str_of_int z =? "N/A") = false.
Proof.
  apply String.eqb_neq. intro E.
  assert (H : all_chars (fun c => negb (Ascii.eqb c "N")) (str_of_int z) = true).
  { apply str_of_int_chars; [|reflexivity].
    intros c Hc. destruct (Ascii.eqb_spec c "N") as [->|N]; [|reflexivity].
    discriminate. }
  rewrite E in H. discriminate.
Qed.

Lemma parse_metric_of_reading (r : ServerCheck.reading) :
  reading_ok r = true ->
  no_comma (ServerCheck.format_reading r) = true
  /\ parse_metric (strip (ServerCheck.format_reading r)) = Ok (reading_value r).
Proof.
  destruct r as [z|s]; simpl; intro H.
  - split; [apply str_of_int_no_comma|].
    rewrite str_of_int_strip. unfold parse_metric.
    now rewrite str_of_int_is_not_na, int_str_of_int.
  - apply String.eqb_eq in H. subst. split; reflexivity.
Qed.

Lemma format_bool_field (b : bool) :
  no_comma (ServerCheck.format_bool b) = true
  /\ (if strip (ServerCheck.format_bool b) =? "True" then true else false) = b.
Proof. destruct b; split; reflexivity. Qed.

Lemma log_line_parses (timestamp server_name server_env : string)
  (c : ServerCheck.Check) :
  no_comma timestamp = true ->
  no_comma server_name = true ->
  no_comma server_env = true ->
  no_comma (ServerCheck.check_status c) = true ->
  reading_ok (ServerCheck.check_cpu c) = true ->
  reading_ok (ServerCheck.check_disk c) = true ->
  parse_log_line (ServerCheck.log_line timestamp server_name server_env c)
  = Ok (Some (entry_of_check timestamp server_name server_env c)).
Proof.
  intros Ht Hn He Hs Hc Hd.
  destruct (parse_metric_of_reading _ Hc) as [Nc Pc].
  destruct (parse_metric_of_reading _ Hd) as [Nd Pd].
  destruct (format_bool_field (ServerCheck.check_is_up c)) as [Nb Pb].
  unfold ServerCheck.log_line. cbn [append].
  rewrite parse_nonblank by apply blank_app_comma.
  rewrite fields_strip.
  rewrite (split_app_comma _ _ Ht), (split_field _ _ Hn), (split_field _ _ He),
    (split_field _ _ Nb), (split_field _ _ Nc), (split_field _ _ Nd),
    (split_last_field _ Hs).
  cbn [map]. rewrite !strip_after_space, (strip_app_blank _ newline eq_refl).
  rewrite Pc, Pd, Pb. reflexivity.
Qed.

Lemma logged_env_cases (server_name : string) :
  In (logged_env server_name) ["prod"; "dev"; "stage"].
Proof.
  unfold logged_env, hardcode_env. cbn [getitem].
  destruct ("web01" =? server_name); [simpl; auto|].
  destruct ("db01" =? server_name); [simpl; auto|].
  destruct ("cache01" =? server_name); [simpl; auto|].
  destruct ("auth01" =? server_name); simpl; auto.
Qed.

Lemma logged_env_plain (server_name : string) :
  no_comma (logged_env server_name) = true
  /\ strip (logged_env server_name) = logged_env server_name.
Proof.
  destruct (logged_env_cases server_name) as [E|[E|[E|[]]]]; rewrite <- E;
    split; reflexivity.
Qed.

Lemma health_eval_plain (is_up : bool) (cpu disk : Z) :
  no_comma (health_eval is_up cpu disk) = true
  /\ strip (health_eval is_up cpu disk) = health_eval is_up cpu disk.
Proof.
  unfold health_eval. destruct is_up; simpl; [|split; reflexivity].
  destruct ((CPU_WARN_THRESHOLD <? cpu)%Z || (DISK_WARN_THRESHOLD <? disk)%Z);
    split; reflexivity.
Qed.

Lemma simulated_check_record (timestamp server_name server_env : string)
  (g : Random) :
  let c := fst (simulated_check g) in
  no_comma (check_status c) = true
  /\ reading_ok (check_cpu c) = true
  /\ reading_ok (check_disk c) = true
  /\ checker_record (entry_of_check timestamp server_name server_env c).
Proof.
  unfold simulated_check, simulate_metrics.
  destruct (choice true [true; false; true] g) as [up g1].
  pose proof (randint_range 0 100 g1) as Hcpu.
  destruct (randint 0 100 g1) as [cpu g2].
  pose proof (randint_range 0 100 g2) as Hdisk.
  destruct (randint 0 100 g2) as [disk g3].
  simpl in Hcpu, Hdisk. cbn [fst check_status check_cpu check_disk].
  destruct (health_eval_plain up cpu disk) as [Ns Ss].
  split; [exact Ns|]. unfold checker_record, entry_of_check.
  cbn [is_up LogReport.cpu LogReport.disk status check_is_up check_cpu
       check_disk check_status].
  rewrite Ss. destruct up; cbn [negb reading_ok reading_value].
  - repeat split. exists cpu, disk. unfold in_percent_range.
    repeat split; lia.
  - repeat split.
Qed.

Lemma check_server_appends (server_name timestamp : string) (w : World) :
  log_file (check_server server_name timestamp w)
  = (log_file w
     ++ [log_line timestamp server_name (logged_env server_name)
           (fst (simulated_check (random w)))])%list.
Proof.
  unfold check_server, logged_env.
  destruct (simulated_check (random w)) as [c g']. reflexivity.
Qed.

Lemma check_server_line (server_name timestamp : string) (w : World) :
  no_comma timestamp = true ->
  no_comma server_name = true ->
  exists line e,
    log_file (check_server server_name timestamp w) = (log_file w ++ [line])%list
    /\ parse_log_line line = Ok (Some e)
    /\ LogReport.timestamp e = strip timestamp
    /\ server e = strip server_name
    /\ env e = logged_env server_name
    /\ checker_record e.
Proof.
  intros Ht Hn.
  destruct (logged_env_plain server_name) as [Ne Se].
  destruct (simulated_check_record timestamp server_name
              (logged_env server_name) (random w)) as (Ns & Hc & Hd & R).
  eexists _, _. split; [apply check_server_appends|].
  split; [now apply log_line_parses|].
  repeat split; [exact Se|exact R].
Qed.

(** X15: every integer that the checker writes as a reading is read back by the
    parser of the report as the same integer, never as an absent value. *)
Theorem written_reading_is_read_back (z : Z) :
  int (str_of_int z) = Ok z
  /\ parse_metric (format_reading (Number z)) = Ok (Some z)
  /\ parse_metric (format_reading (Text "N/A")) = Ok None.
Proof.
  split; [apply int_str_of_int|]. split; [|reflexivity].
  simpl. unfold parse_metric.
  now rewrite str_of_int_is_not_na, int_str_of_int.
Qed.

(** X16: a log line written from a timestamp, a server name, an environment and
    a status that hold no comma, and from readings that are integers or N/A,
    is parsed back to the record of these values, each text trimmed. *)
Theorem log_line_round_trip (timestamp server_name server_env : string)
  (c : Check) :
  no_comma timestamp = true ->
  no_comma server_name = true ->
  no_comma server_env = true ->
  no_comma (check_status c) = true ->
  reading_ok (check_cpu c) = true ->
  reading_ok (check_disk c) = true ->
  parse_log_line (log_line timestamp server_name server_env c)
  = Ok (Some (entry_of_check timestamp server_name server_env c)).
Proof. apply log_line_parses. Qed.

Lemma log_line_round_trip_witness :
  parse_log_line
    (log_line "2024-01-01T00:00:00" "web01" "prod"
       (mkCheck true (Number 42) (Number 100) "WARNING"))
  = Ok (Some (mkEntry "2024-01-01T00:00:00" "web01" "prod" true
                      (Some 42) (Some 100) "WARNING")).
Proof.
  exact (log_line_round_trip "2024-01-01T00:00:00" "web01" "prod"
           (mkCheck true (Number 42) (Number 100) "WARNING")
           eq_refl eq_refl eq_refl eq_refl eq_refl eq_refl).
Defined.

(** X17: the line that a check appends to the log, for a timestamp and a server
    name without a comma, is accepted by the parser of the report: it gives
    a record with the trimmed timestamp and name, the environment of the
    table of the checker (dev for a server that is not in it), and readings
    and status that fit each other: absent readings and CRITICAL for a
    server that is down, readings in [0, 100] and the status that
    [health_eval] gives them for a server that is up. *)
Theorem checked_line_is_parsed (server_name timestamp : string) (w : World) :
  no_comma timestamp = true ->
  no_comma server_name = true ->
  exists line e,
    log_file (check_server server_name timestamp w) = (log_file w ++ [line])%list
    /\ parse_log_line line = Ok (Some e)
    /\ LogReport.timestamp e = strip timestamp
    /\ server e = strip server_name
    /\ env e = logged_env server_name
    /\ (getitem server_name hardcode_env = Raise KeyError -> env e = "dev")
    /\ checker_record e.
Proof.
  intros Ht Hn.
  destruct (check_server_line server_name timestamp w Ht Hn)
    as (line & e & Hl & Hp & H1 & H2 & H3 & H4).
  exists line, e. repeat split; try assumption.
  intro K. rewrite H3. unfold logged_env. now rewrite K.
Qed.

Lemma checked_line_is_parsed_witness :
  exists line e,
    log_file
      (check_server "auth02" "2024-01-01T00:00:00"
         (mkWorld (mkRandom (fun n => Z.of_nat n + 300) 0) [] []))
    = ([] ++ [line])%list
    /\ parse_log_line line = Ok (Some e)
    /\ LogReport.timestamp e = strip "2024-01-01T00:00:00"
    /\ server e = strip "auth02"
    /\ env e = logged_env "auth02"
    /\ (getitem "auth02" hardcode_env = Raise KeyError -> env e = "dev")
    /\ checker_record e.
Proof.
  exact (checked_line_is_parsed "auth02" "2024-01-01T00:00:00"
           (mkWorld (mkRandom (fun n => Z.of_nat n + 300) 0) [] [])
           eq_refl eq_refl).
Defined.





(** ** The metrics of a log of the checker *)

Lemma checker_record_status (e : Entry) :
  checker_record e ->
  is_critical e = negb (is_up e)
  /\ (is_warning e = true -> is_up e = true).
Proof.
  unfold checker_record, is_critical, is_warning.
  destruct (is_up e).
  - intros (c & d & _ & _ & _ & _ & Hs). rewrite Hs. unfold health_eval.
    cbn [negb].
    destruct ((CPU_WARN_THRESHOLD <? c)%Z || (DISK_WARN_THRESHOLD <? d)%Z);
      split; reflexivity.
  - intros (_ & _ & Hs). rewrite Hs. split; [reflexivity|discriminate].
Qed.

Lemma checker_record_readings (entries : list Entry) :
  Forall checker_record entries ->
  Forall in_percent_range (present cpu entries)
  /\ Forall in_percent_range (present disk entries).
Proof.
  induction 1 as [|e r He Hr [IHc IHd]]; [split; constructor|].
  unfold present in *. cbn [flat_map]. unfold checker_record in He.
  destruct (is_up e).
  - destruct He as (c & d & Ec & Ed & Rc & Rd & _). rewrite Ec, Ed.
    split; now constructor.
  - destruct He as (Ec & Ed & _). rewrite Ec, Ed. now split.
Qed.

Lemma checker_counts (entries : list Entry) :
  Forall checker_record entries ->
  count is_critical entries = count (fun e => negb (is_up e)) entries
  /\ count is_warning entries <= count is_up entries.
Proof.
  unfold count, len.
  induction 1 as [|e r He Hr [IHc IHw]]; [split; reflexivity|].
  destruct (checker_record_status e He) as [Hc Hw].
  cbn [filter]. rewrite Hc.
  destruct (is_up e); cbn [negb List.length].
  - split; [exact IHc|]. destruct (is_warning e); cbn [List.length]; lia.
  - split; [lia|].
    destruct (is_warning e); [now specialize (Hw eq_refl)|exact IHw].
Qed.

(** X19: on records that the checker wrote, the summary of a bucket keeps the
    percent range that the parser does not enforce: averages and maxima lie
    in [0, 100]; the critical count is the number of records of status
    CRITICAL, and the warnings are at most the checks that found the server
    up. *)
Theorem metrics_of_checker_records (entries : list Entry) :
  Forall checker_record entries ->
  let m := compute_server_metrics entries in
  (0 <= avg_cpu m <= 100)%Q /\ 0 <= max_cpu m <= 100
  /\ (0 <= avg_disk m <= 100)%Q /\ 0 <= max_disk m <= 100
  /\ critical_count m = count is_critical entries
  /\ warning_count m <= up_count m.
Proof.
  intro H. cbv zeta. rewrite metrics_by_counting.
  cbn [avg_cpu max_cpu avg_disk max_disk critical_count warning_count up_count].
  destruct (checker_record_readings entries H) as [Rc Rd].
  destruct (checker_counts entries H) as [Cc Cw].
  split; [now apply average_bounds|].
  split; [now apply maximum_bounds|].
  split; [now apply average_bounds|].
  split; [now apply maximum_bounds|].
  split; [now rewrite Cc|exact Cw].
Qed.

Lemma metrics_of_checker_records_witness :
  let entries :=
    [mkEntry "t1" "web01" "prod" true (Some 90) (Some 60) "WARNING";
     mkEntry "t2" "web01" "prod" false None None "CRITICAL"] in
  let m := compute_server_metrics entries in
  (0 <= avg_cpu m <= 100)%Q /\ 0 <= max_cpu m <= 100
  /\ (0 <= avg_disk m <= 100)%Q /\ 0 <= max_disk m <= 100
  /\ critical_count m = count is_critical entries
  /\ warning_count m <= up_count m.
Proof.
  intros entries m. apply (metrics_of_checker_records entries).
  repeat constructor.
  exists 90, 60. unfold in_percent_range. repeat split; lia.
Defined.
